(** * File-set resolution of the bufbuild provider

    A shallow embedding of [provider.GetProtoFileSetForBucket] and
    [provider.GetProtoFileSetForRealFilePaths] (package [bufbuild]) and the
    properties of the resolved proto file sets.

    Go maps are finite maps ([gmap]) and Go "set" maps
    ([map[string]struct{}]) are finite sets ([gset]).  Go's [range] over a map
    visits the entries in an unspecified order: the order is an explicit
    parameter of the embedding ([MapRange]).  Errors are values of an
    inductive type with one constructor per error the two functions build,
    carrying the arguments of the format string.  The logger and the
    context handed through to the bucket take no part in the results and
    are left out. *)

From Stdlib Require Import Ascii.
From stdpp Require Import gmap strings list fin_maps sorting.

Open Scope string_scope.

(** ** Errors and results *)

(** The errors built by the two resolvers, and the errors handed through
    unchanged from the collaborators (configuration, path utilities,
    bucket), whose type [E] is left to the collaborators. *)
Inductive Error (E : Type) : Type :=
  (* "no real file path for file path %q" *)
  | ErrNoRealFilePath (rootFilePath : string)
  (* "file with path %s is within multiple roots at %v" *)
  | ErrWithinMultipleRoots (filePath : string) (sortedPaths : list string)
  (* "no input files found that match roots" *)
  | ErrNoInputFilesRoots
  (* "no input files found that match roots and excludes" *)
  | ErrNoInputFilesRootsExcludes
  (* "duplicate normalized file path %s" *)
  | ErrDuplicateNormalized (normalizedRealFilePath : string)
  (* "file %s is not within any root %v" *)
  | ErrNotWithinAnyRoot (normalizedRealFilePath : string) (roots : list string)
  (* "file with path %s is within another root as %s at %s" *)
  | ErrWithinAnotherRoot (normalizedRealFilePath normalizedRootFilePath
                          otherRealFilePath : string)
  (* "no input files specified" *)
  | ErrNoInputFilesSpecified
  (* an error returned by a collaborator, passed on as it is *)
  | ErrCollaborator (e : E).

Arguments ErrNoRealFilePath {E} _.
Arguments ErrWithinMultipleRoots {E} _ _.
Arguments ErrNoInputFilesRoots {E}.
Arguments ErrNoInputFilesRootsExcludes {E}.
Arguments ErrDuplicateNormalized {E} _.
Arguments ErrNotWithinAnyRoot {E} _ _.
Arguments ErrWithinAnotherRoot {E} _ _ _.
Arguments ErrNoInputFilesSpecified {E}.
Arguments ErrCollaborator {E} _.

(** A Go [(T, error)] return value. *)
Inductive result (E A : Type) : Type :=
  | Err (e : Error E)
  | Ok (a : A).

Arguments Err {E A} _.
Arguments Ok {E A} _.

Definition bind {E A B} (r : result E A) (k : A → result E B) : result E B :=
  match r with
  | Err e => Err e
  | Ok a => k a
  end.

Notation "'do' x <- r ; k" := (bind r (λ x, k))
  (at level 10, x name, r at level 100, k at level 200,
   format "'[v' 'do'  x  <-  r ; '/' k ']'").

(** [if err != nil { return nil, err }] around a collaborator's call. *)
Definition check {E A} (r : E + A) : result E A :=
  match r with
  | inl e => Err (ErrCollaborator e)
  | inr a => Ok a
  end.

Definition is_Ok {E A} (r : result E A) : Prop := ∃ a, r = Ok a.
Definition is_Err {E A} (r : result E A) : Prop := ∃ e, r = Err e.

(** ** Collaborators *)

(** The functions of package [storagepath] the resolvers call. *)
Class Storagepath (E : Type) := {
  Ext : string → string;
  Rel : string → string → E + string;
  NormalizeAndValidate : string → E + string;
  Dir : string → string;
  MapContainsMatch : gset string → string → bool;
  MapMatches : gset string → string → gset string;
}.

(** [storage.ReadBucket], with [storage.IsNotExist] on its errors.
    [Walk b root] is the sequence of real paths the bucket hands to the
    visitor under [root], and the bucket's own error after them, if any;
    [Stat b path] is the error of the call, [None] when the object exists. *)
Record ReadBucket (E : Type) := {
  Walk : string → list string * option E;
  Stat : string → option E;
}.

Arguments Walk {E} _ _.
Arguments Stat {E} _ _.

Class Storage (E : Type) := {
  IsNotExist : E → bool;
}.

(** The validated configuration and its constructor [newConfig]. *)
Record Config := {
  Roots : list string;
  Excludes : list string;
}.

Class ConfigProvider (E : Type) := {
  newConfig : list string → list string → E + Config;
}.

(** The order in which [range] visits a Go map: any order, each entry
    once. *)
Class MapRange := {
  range_map : ∀ {V}, gmap string V → list (string * V);
  range_set : gset string → list string;
  range_map_perm : ∀ V (m : gmap string V), range_map m ≡ₚ map_to_list m;
  range_set_perm : ∀ s : gset string, range_set s ≡ₚ elements s;
}.

(** [utilstring.SliceToMap]: the set of the elements of a slice. *)
Definition SliceToMap (s : list string) : gset string := list_to_set s.

(** [sort.Strings]: increasing byte-wise lexicographic order.  The order is
    total and antisymmetric, so the sorted slice does not depend on the
    sorting algorithm. *)
Definition sort_Strings (l : list string) : list string :=
  merge_sort String.le l.

(** ** The proto file set *)

Record ProtoFileSet := {
  ProtoFileSetRoots : list string;
  RootFilePathToRealFilePath : gmap string string;
}.

(** Modelled from the spec: [newProtoFileSet] is declared outside the
    provider's file.  Section 3 of the specification describes the value as
    the roots used to produce it and the final logical path to real path
    mapping, and section 4.4 says construction is all-or-nothing; the
    constructor stores the two values. *)
Definition newProtoFileSet {E} (roots : list string)
    (rootFilePathToRealFilePath : gmap string string) : result E ProtoFileSet :=
  Ok {| ProtoFileSetRoots := roots;
        RootFilePathToRealFilePath := rootFilePathToRealFilePath |}.

(** ** The provider *)

Section provider.
Context {E : Type}.
Context {SP : Storagepath E} {ST : Storage E} {CP : ConfigProvider E}.
Context {MR : MapRange}.

(** *** [GetProtoFileSetForBucket] *)

(** The visitor handed to [bucket.Walk].  The inner map is shared with the
    outer one (it is stored at its creation and mutated afterwards), so
    the added real path is seen through the outer map. *)
Definition visit (root : string)
    (rootFilePathToRealFilePathMap : gmap string (gset string))
    (realFilePath : string) : result E (gmap string (gset string)) :=
  if decide (Ext realFilePath ≠ ".proto") then
    Ok rootFilePathToRealFilePathMap
  else
    do rootFilePath <- check (Rel root realFilePath);
    do rootFilePath <- check (NormalizeAndValidate rootFilePath);
    match rootFilePathToRealFilePathMap !! rootFilePath with
    | Some realFilePathMap =>
        Ok (<[rootFilePath := realFilePathMap ∪ {[realFilePath]}]>
              rootFilePathToRealFilePathMap)
    | None =>
        Ok (<[rootFilePath := ∅ ∪ {[realFilePath]}]>
              rootFilePathToRealFilePathMap)
    end.

(** [bucket.Walk] calling the visitor on each path, stopping at its first
    error. *)
Fixpoint walkVisit (root : string) (realFilePaths : list string)
    (acc : gmap string (gset string)) : result E (gmap string (gset string)) :=
  match realFilePaths with
  | [] => Ok acc
  | realFilePath :: rest =>
      do acc <- visit root acc realFilePath;
      walkVisit root rest acc
  end.

Definition walkRoot (bucket : ReadBucket E) (root : string)
    (acc : gmap string (gset string)) : result E (gmap string (gset string)) :=
  do acc <- walkVisit root (Walk bucket root).1 acc;
  match (Walk bucket root).2 with
  | Some walkErr => Err (ErrCollaborator walkErr)
  | None => Ok acc
  end.

(** [for _, root := range config.Roots] *)
Fixpoint walkRoots (bucket : ReadBucket E) (roots : list string)
    (acc : gmap string (gset string)) : result E (gmap string (gset string)) :=
  match roots with
  | [] => Ok acc
  | root :: rest =>
      do acc <- walkRoot bucket root acc;
      walkRoots bucket rest acc
  end.

(** One iteration of the loop that collapses the sets of real paths. *)
Definition collapseEntry (rootFilePathToRealFilePath : gmap string string)
    (rootFilePath : string) (realFilePathMap : gset string)
    : result E (gmap string string) :=
  let realFilePaths := range_set realFilePathMap in
  match realFilePaths with
  | [] => Err (ErrNoRealFilePath rootFilePath)
  | [realFilePath] =>
      Ok (<[rootFilePath := realFilePath]> rootFilePathToRealFilePath)
  | _ =>
      Err (ErrWithinMultipleRoots rootFilePath (sort_Strings realFilePaths))
  end.

Fixpoint collapse (entries : list (string * gset string))
    (rootFilePathToRealFilePath : gmap string string)
    : result E (gmap string string) :=
  match entries with
  | [] => Ok rootFilePathToRealFilePath
  | (rootFilePath, realFilePathMap) :: rest =>
      do acc <- collapseEntry rootFilePathToRealFilePath rootFilePath
                  realFilePathMap;
      collapse rest acc
  end.

(** The loop that applies the excludes. *)
Fixpoint excludeFilter (excludeMap : gset string)
    (entries : list (string * string))
    (filteredRootFilePathToRealFilePath : gmap string string)
    : gmap string string :=
  match entries with
  | [] => filteredRootFilePathToRealFilePath
  | (rootFilePath, realFilePath) :: rest =>
      excludeFilter excludeMap rest
        (if negb (MapContainsMatch excludeMap (Dir realFilePath)) then
           <[rootFilePath := realFilePath]> filteredRootFilePathToRealFilePath
         else filteredRootFilePathToRealFilePath)
  end.

Definition GetProtoFileSetForBucket (bucket : ReadBucket E)
    (roots excludes : list string) : result E ProtoFileSet :=
  do config <- check (newConfig roots excludes);
  do rootFilePathToRealFilePathMap <- walkRoots bucket (Roots config) ∅;
  do rootFilePathToRealFilePath <-
       collapse (range_map rootFilePathToRealFilePathMap) ∅;
  if decide (length (Excludes config) = 0) then
    if decide (size rootFilePathToRealFilePath = 0) then
      Err ErrNoInputFilesRoots
    else newProtoFileSet (Roots config) rootFilePathToRealFilePath
  else
    let excludeMap := SliceToMap (Excludes config) in
    let filteredRootFilePathToRealFilePath :=
      excludeFilter excludeMap (range_map rootFilePathToRealFilePath) ∅ in
    if decide (size filteredRootFilePathToRealFilePath = 0) then
      Err ErrNoInputFilesRootsExcludes
    else newProtoFileSet (Roots config) filteredRootFilePathToRealFilePath.

(** *** [GetProtoFileSetForRealFilePaths] *)

(** The loop over the explicit paths.  The first component is the
    sequence of paths [bucket.Stat] was called on. *)
Fixpoint statLoop (bucket : ReadBucket E) (realFilePathsAllowNotExist : bool)
    (realFilePaths : list string) (normalizedRealFilePaths : gset string)
    : list string * result E (gset string) :=
  match realFilePaths with
  | [] => ([], Ok normalizedRealFilePaths)
  | realFilePath :: rest =>
      match NormalizeAndValidate realFilePath with
      | inl err => ([], Err (ErrCollaborator err))
      | inr normalizedRealFilePath =>
          if decide (normalizedRealFilePath ∈ normalizedRealFilePaths) then
            ([], Err (ErrDuplicateNormalized normalizedRealFilePath))
          else
            match Stat bucket normalizedRealFilePath with
            | Some err =>
                if negb (IsNotExist err) then
                  ([normalizedRealFilePath], Err (ErrCollaborator err))
                else if negb realFilePathsAllowNotExist then
                  ([normalizedRealFilePath], Err (ErrCollaborator err))
                else
                  let '(stats, r) :=
                    statLoop bucket realFilePathsAllowNotExist rest
                      normalizedRealFilePaths in
                  (normalizedRealFilePath :: stats, r)
            | None =>
                let '(stats, r) :=
                  statLoop bucket realFilePathsAllowNotExist rest
                    (normalizedRealFilePaths ∪ {[normalizedRealFilePath]}) in
                (normalizedRealFilePath :: stats, r)
            end
      end
  end.

(** One iteration of the loop over the surviving real paths. *)
Definition resolveEntry (rootMap : gset string) (roots : list string)
    (rootFilePathToRealFilePath : gmap string string)
    (normalizedRealFilePath : string) : result E (gmap string string) :=
  let matchingRootMap := MapMatches rootMap normalizedRealFilePath in
  let matchingRoots := range_set matchingRootMap in
  match matchingRoots with
  | [] => Err (ErrNotWithinAnyRoot normalizedRealFilePath roots)
  | [matchingRoot] =>
      do normalizedRootFilePath <-
           check (Rel matchingRoot normalizedRealFilePath);
      do normalizedRootFilePath <-
           check (NormalizeAndValidate normalizedRootFilePath);
      match rootFilePathToRealFilePath !! normalizedRootFilePath with
      | Some otherRealFilePath =>
          Err (ErrWithinAnotherRoot normalizedRealFilePath
                 normalizedRootFilePath otherRealFilePath)
      | None =>
          Ok (<[normalizedRootFilePath := normalizedRealFilePath]>
                rootFilePathToRealFilePath)
      end
  | _ =>
      Err (ErrWithinMultipleRoots normalizedRealFilePath
             (sort_Strings matchingRoots))
  end.

Fixpoint resolve (rootMap : gset string) (roots : list string)
    (normalizedRealFilePaths : list string)
    (rootFilePathToRealFilePath : gmap string string)
    : result E (gmap string string) :=
  match normalizedRealFilePaths with
  | [] => Ok rootFilePathToRealFilePath
  | normalizedRealFilePath :: rest =>
      do acc <- resolveEntry rootMap roots rootFilePathToRealFilePath
                  normalizedRealFilePath;
      resolve rootMap roots rest acc
  end.

(** The result is paired with the sequence of [bucket.Stat] calls. *)
Definition GetProtoFileSetForRealFilePaths (bucket : ReadBucket E)
    (roots realFilePaths : list string) (realFilePathsAllowNotExist : bool)
    : list string * result E ProtoFileSet :=
  match newConfig roots [] with
  | inl err => ([], Err (ErrCollaborator err))
  | inr config =>
      let '(stats, r) :=
        statLoop bucket realFilePathsAllowNotExist realFilePaths ∅ in
      (stats,
       do normalizedRealFilePaths <- r;
       let rootMap := SliceToMap (Roots config) in
       do rootFilePathToRealFilePath <-
            resolve rootMap (Roots config)
              (range_set normalizedRealFilePaths) ∅;
       if decide (size rootFilePathToRealFilePath = 0) then
         Err ErrNoInputFilesSpecified
       else newProtoFileSet (Roots config) rootFilePathToRealFilePath)
  end.

End provider.

(** ** A reference instance of the collaborators

    The path utilities, the configuration validator and the bucket are not
    part of the provider's file.  The instance below follows what the
    specification says about them; the concrete scenarios are evaluated on
    it, and the general theorems do not depend on it. *)

Module InMemory.

(** Errors of the collaborators. *)
Inductive CollabError : Type :=
  | NotExist (path : string)
  | InvalidPath (path : string)
  | NotWithin (basePath targetPath : string)
  | InvalidConfig (reason : string)
  | IOError (reason : string).

(** The elements of a slash-separated path. *)
Fixpoint splitSlash (s : string) : list string :=
  match s with
  | EmptyString => [EmptyString]
  | String c rest =>
      if Ascii.eqb c "/"%char then EmptyString :: splitSlash rest
      else match splitSlash rest with
           | [] => [String c EmptyString]
           | seg :: segs => String c seg :: segs
           end
  end.

Definition joinSlash (segs : list string) : string :=
  match segs with
  | [] => "."
  | _ => String.concat "/" segs
  end.

(** Elements of a normalized path; [.] is the path with no element. *)
Definition elementsOf (path : string) : list string :=
  if decide (path = ".") then [] else splitSlash path.

(** Drops empty and [.] elements and resolves [..] against the element
    before it; [None] when the path leaves its context. *)
Fixpoint cleanElements (segs : list string) (kept : list string)
    : option (list string) :=
  match segs with
  | [] => Some (reverse kept)
  | seg :: rest =>
      if decide (seg = "" ∨ seg = ".") then cleanElements rest kept
      else if decide (seg = "..") then
        match kept with
        | [] => None
        | _ :: kept' => cleanElements rest kept'
        end
      else cleanElements rest (seg :: kept)
  end.

(** Modelled from the spec: [storagepath.NormalizeAndValidate].  A
    normalized path has no [.] or [..] element, no trailing slash and
    forward-slash separators; absolute paths and paths that leave their
    context are invalid. *)
Definition normalizeAndValidate (path : string) : CollabError + string :=
  match path with
  | String "/"%char _ => inl (InvalidPath path)
  | _ =>
      match cleanElements (splitSlash path) [] with
      | None => inl (InvalidPath path)
      | Some segs => inr (joinSlash segs)
      end
  end.

Fixpoint hasSeparatorOrDot (s : string) : bool :=
  match s with
  | EmptyString => false
  | String c rest =>
      Ascii.eqb c "/"%char || Ascii.eqb c "."%char || hasSeparatorOrDot rest
  end.

(** Modelled from the spec: [storagepath.Ext], the suffix of the last
    element of the path that starts at its last dot, empty when there is
    none; the match on it is exact and case-sensitive. *)
Fixpoint ext (path : string) : string :=
  match path with
  | EmptyString => EmptyString
  | String c rest =>
      if hasSeparatorOrDot rest then ext rest
      else if Ascii.eqb c "."%char then path
      else EmptyString
  end.

(** Modelled from the spec: [storagepath.Dir], the containing directory
    of a path, [.] for a path of one element. *)
Definition dir (path : string) : string :=
  joinSlash (removelast (elementsOf path)).

Fixpoint stripPrefix (prefix l : list string) : option (list string) :=
  match prefix, l with
  | [], _ => Some l
  | p :: prefix', x :: l' =>
      if decide (p = x) then stripPrefix prefix' l' else None
  | _ :: _, [] => None
  end.

(** Modelled from the spec: [storagepath.Rel], the path of a descendant
    relative to a root. *)
Definition rel (basePath targetPath : string) : CollabError + string :=
  match stripPrefix (elementsOf basePath) (elementsOf targetPath) with
  | Some rest => inr (joinSlash rest)
  | None => inl (NotWithin basePath targetPath)
  end.

(** The path and its ancestors, the root directory [.] left out. *)
Definition selfAndAncestors (path : string) : list string :=
  let segs := elementsOf path in
  (λ n, joinSlash (take n segs)) <$> seq 1 (length segs).

(** Modelled from the spec: [storagepath.MapContainsMatch], whether the
    path is one of the candidate directories or a descendant of one. *)
Definition mapContainsMatch (m : gset string) (path : string) : bool :=
  existsb (λ p, bool_decide (p ∈ m)) (selfAndAncestors path).

(** Modelled from the spec: [storagepath.MapMatches], the candidate
    directories that are the path or one of its ancestors. *)
Definition mapMatches (m : gset string) (path : string) : gset string :=
  list_to_set (filter (λ p, p ∈ m) (selfAndAncestors path)).

#[export] Instance storagepath : Storagepath CollabError := {|
  Ext := ext;
  Rel := rel;
  NormalizeAndValidate := normalizeAndValidate;
  Dir := dir;
  MapContainsMatch := mapContainsMatch;
  MapMatches := mapMatches;
|}.

(** Modelled from the spec: [storage.IsNotExist], the "does not exist"
    condition of a bucket error. *)
#[export] Instance storage : Storage CollabError := {|
  IsNotExist e := match e with NotExist _ => true | _ => false end;
|}.

Fixpoint normalizeAll (paths : list string) : CollabError + list string :=
  match paths with
  | [] => inr []
  | path :: rest =>
      if decide (path = "") then inl (InvalidConfig "empty path")
      else
        match normalizeAndValidate path with
        | inl e => inl e
        | inr normalized =>
            match normalizeAll rest with
            | inl e => inl e
            | inr normalizedRest => inr (normalized :: normalizedRest)
            end
        end
  end.

(** Whether [ancestor] is the path [path] or one of its ancestors. *)
Definition isWithin (ancestor path : string) : bool :=
  bool_decide (is_Some (stripPrefix (elementsOf ancestor) (elementsOf path))).

Definition rootsOverlap (roots : list string) : bool :=
  existsb (λ r1, existsb (λ r2, bool_decide (r1 ≠ r2) && isWithin r1 r2) roots)
    roots.

(** Modelled from the spec: [newConfig] (section 4.1).  It normalizes the
    roots and the excludes, rejects empty and invalid entries,
    deduplicates, and fails when no root is left or when a root is an
    ancestor of another one. *)
Definition validateConfig (roots excludes : list string)
    : CollabError + Config :=
  match normalizeAll roots with
  | inl e => inl e
  | inr normalizedRoots =>
      match normalizeAll excludes with
      | inl e => inl e
      | inr normalizedExcludes =>
          let roots := remove_dups normalizedRoots in
          if decide (roots = []) then inl (InvalidConfig "no roots")
          else if rootsOverlap roots then
            inl (InvalidConfig "overlapping roots")
          else inr {| Roots := roots;
                      Excludes := remove_dups normalizedExcludes |}
      end
  end.

#[export] Instance configProvider : ConfigProvider CollabError := {|
  newConfig := validateConfig;
|}.

(** A bucket holding the given files: [Walk] enumerates the files under
    the prefix, [Stat] fails with [NotExist] on any other path. *)
Definition bucketOf (files : list string) : ReadBucket CollabError := {|
  Walk prefix := (filter (λ f, isWithin prefix f = true) files, None);
  Stat path := if decide (path ∈ files) then None else Some (NotExist path);
|}.

(** A bucket whose [Stat] fails on one path with an error other than
    [NotExist]. *)
Definition brokenBucketOf (files : list string) (broken : string)
    : ReadBucket CollabError := {|
  Walk prefix := (filter (λ f, isWithin prefix f = true) files, None);
  Stat path :=
    if decide (path = broken) then Some (IOError "stat failed")
    else if decide (path ∈ files) then None
    else Some (NotExist path);
|}.

(** Two iteration orders of [range]: the order of the map's own list of
    entries, and its reverse. *)
Definition rangeForward : MapRange := {|
  range_map V m := map_to_list m;
  range_set s := elements s;
  range_map_perm V m := reflexivity (map_to_list m);
  range_set_perm s := reflexivity (elements s);
|}.

Definition rangeBackward : MapRange := {|
  range_map V m := reverse (map_to_list m);
  range_set s := reverse (elements s);
  range_map_perm V m := reverse_Permutation (map_to_list m);
  range_set_perm s := reverse_Permutation (elements s);
|}.

End InMemory.

(** ** Vocabulary of the specification *)

Section vocabulary.
Context {E : Type}.
Context {SP : Storagepath E} {ST : Storage E} {CP : ConfigProvider E}.
Context {MR : MapRange}.

(** The logical path of a real path: its path relative to the root,
    normalized and validated again. *)
Definition logicalPath (root realFilePath : string) : result E string :=
  do rootFilePath <- check (Rel root realFilePath);
  check (NormalizeAndValidate rootFilePath).

(** The real file [realFilePath] is a schema file enumerated under one of
    the roots, with logical path [rootFilePath]. *)
Definition produces (bucket : ReadBucket E) (roots : list string)
    (rootFilePath realFilePath : string) : Prop :=
  ∃ root, root ∈ roots ∧ realFilePath ∈ (Walk bucket root).1 ∧
          Ext realFilePath = ".proto" ∧
          logicalPath root realFilePath = Ok rootFilePath.

(** Every enumeration ends without a bucket error and every schema file
    has a logical path. *)
Definition walksOk (bucket : ReadBucket E) (roots : list string) : Prop :=
  ∀ root, root ∈ roots →
    (Walk bucket root).2 = None ∧
    ∀ realFilePath, realFilePath ∈ (Walk bucket root).1 →
      Ext realFilePath = ".proto" → is_Ok (logicalPath root realFilePath).

(** Two distinct real paths with the same logical path. *)
Definition collision (bucket : ReadBucket E) (roots : list string) : Prop :=
  ∃ rootFilePath realFilePath1 realFilePath2,
    realFilePath1 ≠ realFilePath2 ∧
    produces bucket roots rootFilePath realFilePath1 ∧
    produces bucket roots rootFilePath realFilePath2.

(** The real path passes the excludes of the configuration. *)
Definition kept (config : Config) (realFilePath : string) : Prop :=
  length (Excludes config) = 0 ∨
  MapContainsMatch (SliceToMap (Excludes config)) (Dir realFilePath) = false.

(** The error of an empty final map. *)
Definition emptyResultError (config : Config) : Error E :=
  if decide (length (Excludes config) = 0) then ErrNoInputFilesRoots
  else ErrNoInputFilesRootsExcludes.

(** The set of real paths accumulated for a logical path. *)
Definition realPathsOf (m : gmap string (gset string)) (rootFilePath : string)
    : gset string :=
  default ∅ (m !! rootFilePath).

(** Every logical path of the accumulation map has a real path. *)
Definition allInhabited (m : gmap string (gset string)) : Prop :=
  ∀ rootFilePath realFilePathMap,
    m !! rootFilePath = Some realFilePathMap → realFilePathMap ≠ ∅.

(** In explicit mode: the real path is within exactly one root and has
    the logical path [rootFilePath] relative to it. *)
Definition resolvesTo (roots : list string)
    (normalizedRealFilePath rootFilePath : string) : Prop :=
  ∃ root, MapMatches (SliceToMap roots) normalizedRealFilePath = {[root]} ∧
          logicalPath root normalizedRealFilePath = Ok rootFilePath.

(** In explicit mode: the recorded paths all exist in the bucket. *)
Definition allExist (bucket : ReadBucket E) (seen : gset string) : Prop :=
  ∀ n, n ∈ seen → Stat bucket n = None.

End vocabulary.

(** ** The format flags of the commands

    [IsFormatJSON], [IsLintFormatJSON] and [IsLintFormatConfigIgnoreYAML] of
    package [internal] switch on [strings.TrimSpace(strings.ToLower(format))].
    The two functions of package [strings] are parameters; [GoAscii] gives
    them on strings of ASCII bytes. *)

Class Strings := {
  ToLower : string → string;
  TrimSpace : string → string;
}.

(** [fmt.Errorf("--%s: unknown format: %q", flagName, s)] *)
Inductive FormatError : Type :=
  | ErrUnknownFormat (flagName s : string).

Section format.
Context {SS : Strings}.

Definition IsFormatJSON (flagName format : string) : FormatError + bool :=
  let s := TrimSpace (ToLower format) in
  if decide (s = "text" ∨ s = "") then inr false
  else if decide (s = "json") then inr true
  else inl (ErrUnknownFormat flagName s).

Definition IsLintFormatJSON (flagName format : string) : FormatError + bool :=
  let s := TrimSpace (ToLower format) in
  if decide (s = "text" ∨ s = "") then inr false
  else if decide (s = "json") then inr true
  else if decide (s = "config-ignore-yaml") then inr false
  else inl (ErrUnknownFormat flagName s).

Definition IsLintFormatConfigIgnoreYAML (flagName format : string)
    : FormatError + bool :=
  let s := TrimSpace (ToLower format) in
  if decide (s = "text" ∨ s = "") then inr false
  else if decide (s = "json") then inr false
  else if decide (s = "config-ignore-yaml") then inr true
  else inl (ErrUnknownFormat flagName s).

End format.

(** [strings.ToLower] and [strings.TrimSpace] on strings of ASCII bytes:
    the letters [A] to [Z] are lowered, and the white space is tab, line
    feed, vertical tab, form feed, carriage return and space. *)
Module GoAscii.

Definition isASCIIByte (c : ascii) : bool := (N_of_ascii c <? 128)%N.

Fixpoint isASCII (s : string) : bool :=
  match s with
  | EmptyString => true
  | String c rest => isASCIIByte c && isASCII rest
  end.

Definition toLowerByte (c : ascii) : ascii :=
  let n := N_of_ascii c in
  if ((65 <=? n) && (n <=? 90))%N then ascii_of_N (n + 32) else c.

Fixpoint toLower (s : string) : string :=
  match s with
  | EmptyString => EmptyString
  | String c rest => String (toLowerByte c) (toLower rest)
  end.

Definition isSpace (c : ascii) : bool :=
  let n := N_of_ascii c in
  (((9 <=? n) && (n <=? 13)) || (n =? 32))%N.

Fixpoint allSpace (s : string) : bool :=
  match s with
  | EmptyString => true
  | String c rest => isSpace c && allSpace rest
  end.

Fixpoint trimLeft (s : string) : string :=
  match s with
  | EmptyString => EmptyString
  | String c rest => if isSpace c then trimLeft rest else s
  end.

Fixpoint trimRight (s : string) : string :=
  match s with
  | EmptyString => EmptyString
  | String c rest =>
      match trimRight rest with
      | EmptyString => if isSpace c then EmptyString else String c EmptyString
      | rest' => String c rest'
      end
  end.

Definition trimSpace (s : string) : string := trimRight (trimLeft s).

Definition asciiStrings : Strings := {|
  ToLower := toLower;
  TrimSpace := trimSpace;
|}.

End GoAscii.

(** ** Results and sorting *)

Lemma bind_Ok {E A B} (r : result E A) (k : A → result E B) b :
  bind r k = Ok b ↔ ∃ a, r = Ok a ∧ k a = Ok b.
Proof.
  destruct r as [e|a]; simpl; split.
  - discriminate.
  - intros (a & Ha & _). discriminate.
  - intros Hk. by exists a.
  - intros (a' & [= <-] & Hk). exact Hk.
Qed.

Lemma bind_Err {E A B} (r : result E A) (k : A → result E B) e :
  bind r k = Err e ↔ r = Err e ∨ ∃ a, r = Ok a ∧ k a = Err e.
Proof.
  destruct r as [e'|a]; simpl; split.
  - intros [= ->]. by left.
  - intros [[= ->] | (a & Ha & _)]; [reflexivity | discriminate].
  - intros Hk. right. by exists a.
  - intros [Hr | (a' & [= <-] & Hk)]; [discriminate | exact Hk].
Qed.

Lemma is_Ok_or_Err {E A} (r : result E A) : is_Ok r ∨ is_Err r.
Proof. destruct r; [right | left]; eexists; done. Qed.

Lemma is_Err_not_Ok {E A} (r : result E A) : is_Err r ↔ ¬ is_Ok r.
Proof.
  destruct r as [e|a]; split.
  - intros _ [a Ha]. discriminate.
  - intros _. by exists e.
  - intros [e He]. discriminate.
  - intros Hn. destruct Hn. by exists a.
Qed.

Lemma sort_Strings_Sorted l : Sorted String.le (sort_Strings l).
Proof. apply (Sorted_merge_sort String.le). Qed.

Lemma sort_Strings_Permutation l : sort_Strings l ≡ₚ l.
Proof. apply (merge_sort_Permutation String.le). Qed.

Section range.
Context {MR : MapRange}.

Lemma range_set_elem (s : gset string) x : x ∈ range_set s ↔ x ∈ s.
Proof. by rewrite range_set_perm, elem_of_elements. Qed.

Lemma range_set_NoDup (s : gset string) : NoDup (range_set s).
Proof. rewrite range_set_perm. apply NoDup_elements. Qed.

Lemma range_set_length (s : gset string) : length (range_set s) = size s.
Proof. by rewrite range_set_perm. Qed.

Lemma range_set_nil (s : gset string) : range_set s = [] ↔ s = ∅.
Proof.
  split.
  - intros H. apply leibniz_equiv, size_empty_inv.
    by rewrite <- range_set_length, H.
  - intros ->. apply length_zero_iff_nil.
    by rewrite range_set_length, size_empty.
Qed.

Lemma range_set_singleton (s : gset string) x :
  range_set s = [x] ↔ s = {[x]}.
Proof.
  split.
  - intros H. apply set_eq. intros y.
    by rewrite <- range_set_elem, H, list_elem_of_singleton, elem_of_singleton.
  - intros ->. pose proof (range_set_perm {[x]}) as Hp.
    rewrite elements_singleton in Hp. by apply Permutation_singleton_r.
Qed.

Lemma range_map_elem {V} (m : gmap string V) k v :
  (k, v) ∈ range_map m ↔ m !! k = Some v.
Proof. by rewrite range_map_perm, elem_of_map_to_list. Qed.

Lemma range_map_NoDup_fst {V} (m : gmap string V) : NoDup (range_map m).*1.
Proof. rewrite range_map_perm. apply NoDup_fst_map_to_list. Qed.

End range.

(** ** The enumeration of the roots *)

Section walk.
Context {E : Type}.
Context {SP : Storagepath E} {ST : Storage E} {CP : ConfigProvider E}.
Context {MR : MapRange}.

Implicit Types (acc : gmap string (gset string)) (bucket : ReadBucket E).

Lemma logicalPath_Err root f e :
  logicalPath root f = Err e → ∃ e', e = ErrCollaborator e'.
Proof.
  unfold logicalPath, check.
  destruct (Rel root f) as [e1|r]; simpl; [intros [= <-]; eauto|].
  destruct (NormalizeAndValidate r) as [e2|k]; [intros [= <-]; eauto|done].
Qed.

Lemma visit_skip root acc f : Ext f ≠ ".proto" → visit root acc f = Ok acc.
Proof. intros Hext. unfold visit. by rewrite decide_True. Qed.

Lemma visit_proto root acc f :
  Ext f = ".proto" →
  visit root acc f =
    do k <- logicalPath root f; Ok (<[k := realPathsOf acc k ∪ {[f]}]> acc).
Proof.
  intros Hext. unfold visit, logicalPath, realPathsOf.
  rewrite decide_False by (intros Hne; by apply Hne).
  destruct (check (Rel root f)) as [e|r]; simpl; [done|].
  destruct (check (NormalizeAndValidate r)) as [e|k]; simpl; [done|].
  by destruct (acc !! k).
Qed.

Lemma visit_Ok_inv root acc f acc' :
  visit root acc f = Ok acc' →
  (Ext f ≠ ".proto" ∧ acc' = acc) ∨
  (Ext f = ".proto" ∧
   ∃ k, logicalPath root f = Ok k ∧
        acc' = <[k := realPathsOf acc k ∪ {[f]}]> acc).
Proof.
  destruct (decide (Ext f = ".proto")) as [Hext|Hext].
  - rewrite visit_proto by done. intros (k & Hk & [= <-])%bind_Ok.
    right. eauto.
  - rewrite visit_skip by done. intros [= <-]. by left.
Qed.

Lemma visit_is_Ok root acc f :
  is_Ok (visit root acc f) ↔
  (Ext f = ".proto" → is_Ok (logicalPath root f)).
Proof.
  destruct (decide (Ext f = ".proto")) as [Hext|Hext].
  - rewrite visit_proto by done. split.
    + intros [acc' (k & Hk & _)%bind_Ok] _. by exists k.
    + intros H. destruct (H Hext) as [k ->]. simpl. by eexists.
  - rewrite visit_skip by done. split; [done|]. intros _. by eexists.
Qed.

Lemma visit_Err root acc f e :
  visit root acc f = Err e → ∃ e', e = ErrCollaborator e'.
Proof.
  destruct (decide (Ext f = ".proto")) as [Hext|Hext].
  - rewrite visit_proto by done.
    intros [H | (k & _ & [=])]%bind_Err. by eapply logicalPath_Err.
  - by rewrite visit_skip.
Qed.

Lemma realPathsOf_insert acc k S k' :
  realPathsOf (<[k := S]> acc) k' =
    if decide (k = k') then S else realPathsOf acc k'.
Proof.
  unfold realPathsOf. rewrite lookup_insert.
  by destruct (decide (k = k')).
Qed.

Lemma visit_realPathsOf root acc f acc' k x :
  visit root acc f = Ok acc' →
  x ∈ realPathsOf acc' k ↔
    x ∈ realPathsOf acc k ∨
    (x = f ∧ Ext f = ".proto" ∧ logicalPath root f = Ok k).
Proof.
  intros [[Hext ->] | (Hext & k0 & Hk0 & ->)]%visit_Ok_inv.
  - split; [by left|]. intros [H | (_ & Hp & _)]; done.
  - rewrite realPathsOf_insert. destruct (decide (k0 = k)) as [->|Hne].
    + rewrite elem_of_union, elem_of_singleton. split.
      * intros [H | ->]; [by left | by right].
      * intros [H | (-> & _)]; [by left | by right].
    + split; [by left|]. intros [H | (_ & _ & Hk)]; [done|].
      rewrite Hk0 in Hk. by injection Hk.
Qed.

Lemma visit_allInhabited root acc f acc' :
  allInhabited acc → visit root acc f = Ok acc' → allInhabited acc'.
Proof.
  intros Hacc [[_ ->] | (_ & k0 & _ & ->)]%visit_Ok_inv; [done|].
  intros k S. rewrite lookup_insert. destruct (decide (k0 = k)) as [->|Hne].
  - intros [= <-] Hempty.
    assert (f ∈ (∅ : gset string)) as Hf; [|by apply not_elem_of_empty in Hf].
    rewrite <- Hempty. apply elem_of_union_r. by apply elem_of_singleton.
  - apply Hacc.
Qed.

(** The visitor over the paths of one enumeration. *)
Lemma walkVisit_realPathsOf root paths acc acc' k x :
  walkVisit root paths acc = Ok acc' →
  x ∈ realPathsOf acc' k ↔
    x ∈ realPathsOf acc k ∨
    (x ∈ paths ∧ Ext x = ".proto" ∧ logicalPath root x = Ok k).
Proof.
  revert acc. induction paths as [|f paths IH]; intros acc; simpl.
  - intros [= <-]. split; [by left|].
    intros [H | (H%elem_of_nil & _)]; done.
  - intros (acc1 & Hv & Hw)%bind_Ok.
    rewrite (IH _ Hw), (visit_realPathsOf _ _ _ _ _ _ Hv), elem_of_cons.
    split.
    + intros [[H | (-> & Hp & Hk)] | (Hin & Hp & Hk)]; eauto 6.
    + intros [H | ([-> | Hin] & Hp & Hk)]; eauto 6.
Qed.

Lemma walkVisit_allInhabited root paths acc acc' :
  allInhabited acc → walkVisit root paths acc = Ok acc' → allInhabited acc'.
Proof.
  revert acc. induction paths as [|f paths IH]; intros acc Hacc; simpl.
  - by intros [= <-].
  - intros (acc1 & Hv & Hw)%bind_Ok.
    eapply IH; [|done]. by eapply visit_allInhabited.
Qed.

Lemma walkVisit_is_Ok root paths acc :
  is_Ok (walkVisit root paths acc) ↔
  ∀ f, f ∈ paths → Ext f = ".proto" → is_Ok (logicalPath root f).
Proof.
  revert acc. induction paths as [|f paths IH]; intros acc; simpl.
  - split; [|by eexists]. intros _ f Hf. by apply elem_of_nil in Hf.
  - split.
    + intros [acc' (acc1 & Hv & Hw)%bind_Ok] f' [-> | Hin]%elem_of_cons.
      * apply (visit_is_Ok root acc). by exists acc1.
      * apply (IH acc1); [by exists acc'|done].
    + intros H.
      destruct (proj2 (visit_is_Ok root acc f)) as [acc1 Hv].
      { apply H. by left. }
      rewrite Hv. simpl. apply IH. intros f' Hin. apply H. by right.
Qed.

Lemma walkVisit_Err root paths acc e :
  walkVisit root paths acc = Err e → ∃ e', e = ErrCollaborator e'.
Proof.
  revert acc. induction paths as [|f paths IH]; intros acc; simpl; [done|].
  intros [Hv | (acc1 & _ & Hw)]%bind_Err.
  - by eapply visit_Err.
  - by eapply IH.
Qed.

(** The enumeration of all the roots. *)
Lemma walkRoots_realPathsOf bucket roots acc acc' k x :
  walkRoots bucket roots acc = Ok acc' →
  x ∈ realPathsOf acc' k ↔
    x ∈ realPathsOf acc k ∨ produces bucket roots k x.
Proof.
  revert acc. induction roots as [|root roots IH]; intros acc; simpl.
  - intros [= <-]. split; [by left|].
    intros [H | (root & H%elem_of_nil & _)]; done.
  - intros (acc1 & Hr & Hw)%bind_Ok.
    unfold walkRoot in Hr. apply bind_Ok in Hr as (acc2 & Hv & Hr).
    destruct (Walk bucket root).2; [done|]. injection Hr as ->.
    rewrite (IH _ Hw), (walkVisit_realPathsOf _ _ _ _ _ _ Hv).
    unfold produces. split.
    + intros [[H | (Hin & Hp & Hk)] | (r & Hr & H)]; [by left | |].
      * right. exists root. split; [by left|done].
      * right. exists r. split; [by right|done].
    + intros [H | (r & [-> | Hr]%elem_of_cons & H)]; eauto 6.
Qed.

Lemma walkRoots_allInhabited bucket roots acc acc' :
  allInhabited acc → walkRoots bucket roots acc = Ok acc' →
  allInhabited acc'.
Proof.
  revert acc. induction roots as [|root roots IH]; intros acc Hacc; simpl.
  - by intros [= <-].
  - intros (acc1 & Hr & Hw)%bind_Ok.
    unfold walkRoot in Hr. apply bind_Ok in Hr as (acc2 & Hv & Hr).
    destruct (Walk bucket root).2; [done|]. injection Hr as ->.
    eapply IH; [|done]. by eapply walkVisit_allInhabited.
Qed.

Lemma walkRoots_is_Ok bucket roots acc :
  is_Ok (walkRoots bucket roots acc) ↔ walksOk bucket roots.
Proof.
  unfold walksOk.
  revert acc. induction roots as [|root roots IH]; intros acc; simpl.
  - split; [|by eexists]. intros _ r Hr. by apply elem_of_nil in Hr.
  - split.
    + intros [acc' (acc1 & Hr & Hw)%bind_Ok].
      unfold walkRoot in Hr. apply bind_Ok in Hr as (acc2 & Hv & Hr).
      destruct (Walk bucket root).2 eqn:Herr; [done|]. injection Hr as ->.
      intros r [-> | Hin]%elem_of_cons.
      * split; [done|]. apply (walkVisit_is_Ok root _ acc). by exists acc1.
      * apply (IH acc1); [by exists acc'|done].
    + intros H. destruct (H root) as [Herr Hfiles]; [by left|].
      apply (walkVisit_is_Ok root _ acc) in Hfiles as [acc1 Hv].
      unfold walkRoot. rewrite Hv, Herr. simpl.
      apply IH. intros r Hr. apply H. by right.
Qed.

Lemma walkRoots_Err bucket roots acc e :
  walkRoots bucket roots acc = Err e → ∃ e', e = ErrCollaborator e'.
Proof.
  revert acc. induction roots as [|root roots IH]; intros acc; simpl; [done|].
  intros [Hr | (acc1 & _ & Hw)]%bind_Err; [|by eapply IH].
  unfold walkRoot in Hr. apply bind_Err in Hr as [Hv | (acc2 & _ & Hr)].
  - by eapply walkVisit_Err.
  - destruct (Walk bucket root).2; [|done]. injection Hr as <-. eauto.
Qed.

Lemma allInhabited_empty : allInhabited ∅.
Proof. intros k S. by rewrite lookup_empty. Qed.

End walk.

(** ** Collapsing the sets of real paths, and the excludes *)

Section collapse.
Context {E : Type}.
Context {SP : Storagepath E} {ST : Storage E} {CP : ConfigProvider E}.
Context {MR : MapRange}.

Implicit Types (acc : gmap string string) (S : gset string).

Lemma collapseEntry_cases acc k S :
  (S = ∅ ∧ collapseEntry (E:=E) acc k S = Err (ErrNoRealFilePath k)) ∨
  (∃ f, S = {[f]} ∧ collapseEntry (E:=E) acc k S = Ok (<[k := f]> acc)) ∨
  ((2 ≤ size S)%nat ∧
   collapseEntry (E:=E) acc k S =
     Err (ErrWithinMultipleRoots k (sort_Strings (range_set S)))).
Proof.
  unfold collapseEntry.
  destruct (range_set S) as [|f [|f' l]] eqn:Hr.
  - left. by apply range_set_nil in Hr.
  - right; left. exists f. by apply range_set_singleton in Hr.
  - right; right. split; [|done].
    rewrite <- range_set_length, Hr. simpl. lia.
Qed.

Lemma collapse_Ok_inv entries acc m :
  NoDup entries.*1 →
  collapse (E:=E) entries acc = Ok m →
  (∀ k S, (k, S) ∈ entries → ∃ f, S = {[f]}) ∧
  (∀ k f, m !! k = Some f ↔
     (k, {[f]}) ∈ entries ∨ ((k ∉ entries.*1) ∧ acc !! k = Some f)).
Proof.
  revert acc. induction entries as [|[k0 S0] entries IH]; intros acc Hnd.
  - simpl. intros [= <-]. split.
    + intros k S Hin. by apply elem_of_nil in Hin.
    + intros k f. split.
      * intros H. right. split; [apply not_elem_of_nil|done].
      * intros [Hin%elem_of_nil | [_ H]]; done.
  - simpl. intros (acc1 & Hentry & Hrest)%bind_Ok.
    apply NoDup_cons in Hnd as [Hk0 Hnd].
    destruct (collapseEntry_cases acc k0 S0)
      as [[_ He] | [(f0 & -> & He) | [_ He]]];
      rewrite He in Hentry; try done.
    injection Hentry as <-.
    destruct (IH _ Hnd Hrest) as [Hsingle Hlookup]. split.
    + intros k S [[= -> ->] | Hin]%elem_of_cons; eauto.
    + intros k f. rewrite Hlookup, lookup_insert. simpl.
      rewrite elem_of_cons, not_elem_of_cons.
      destruct (decide (k0 = k)) as [->|Hne].
      * split.
        -- intros [Hin | [_ [= <-]]].
           ++ destruct Hk0. apply list_elem_of_fmap. by exists (k, {[f]}).
           ++ by left; left.
        -- intros [[Heq | Hin] | [[Hkk _] _]]; [|  |done].
           ++ pose proof (f_equal snd Heq) as Hs. simpl in Hs.
              apply (inj singleton) in Hs as ->. by right.
           ++ by left.
      * split.
        -- intros [Hin | [Hnin Hacc]]; [by left; right|by right].
        -- intros [[Heq | Hin] | [[_ Hnin] Hacc]];
             [|by left | by right].
           destruct Hne. by injection Heq.
Qed.

Lemma collapse_Err entries acc e :
  (∀ k S, (k, S) ∈ entries → S ≠ ∅) →
  collapse (E:=E) entries acc = Err e →
  ∃ k S, (k, S) ∈ entries ∧ (2 ≤ size S)%nat ∧
         e = ErrWithinMultipleRoots k (sort_Strings (range_set S)).
Proof.
  revert acc. induction entries as [|[k0 S0] entries IH]; intros acc Hne.
  - done.
  - simpl. intros [Hentry | (acc1 & _ & Hrest)]%bind_Err.
    + destruct (collapseEntry_cases acc k0 S0)
        as [[Hempty _] | [(f0 & _ & He) | [Hsize He]]].
      * destruct (Hne k0 S0); [by left|done].
      * by rewrite He in Hentry.
      * rewrite He in Hentry. injection Hentry as <-.
        exists k0, S0. split; [by left|done].
    + destruct (IH acc1) as (k & S & Hin & Hrest');
        [intros k S Hin; apply (Hne k S); by right|done|].
      exists k, S. split; [by right|done].
Qed.

Lemma collapse_is_Ok entries acc :
  (∀ k S, (k, S) ∈ entries → ∃ f, S = {[f]}) →
  is_Ok (collapse (E:=E) entries acc).
Proof.
  revert acc. induction entries as [|[k0 S0] entries IH]; intros acc Hs.
  - by eexists.
  - simpl. destruct (Hs k0 S0) as [f0 ->]; [by left|].
    destruct (collapseEntry_cases acc k0 {[f0]})
      as [[Hempty _] | [(f & _ & He) | [Hsize _]]].
    + by apply (non_empty_singleton_L f0) in Hempty.
    + rewrite He. simpl. apply IH. intros k S Hin. apply (Hs k S). by right.
    + rewrite size_singleton in Hsize. lia.
Qed.

(** The collapse of a whole accumulation map. *)
Lemma collapse_map_Ok (M : gmap string (gset string)) m :
  collapse (E:=E) (range_map M) ∅ = Ok m →
  (∀ k S, M !! k = Some S → ∃ f, S = {[f]}) ∧
  (∀ k f, m !! k = Some f ↔ M !! k = Some {[f]}).
Proof.
  intros [Hsingle Hlookup]%collapse_Ok_inv; [|apply range_map_NoDup_fst].
  split.
  - intros k S Hin. apply (Hsingle k). by apply range_map_elem.
  - intros k f. rewrite Hlookup, range_map_elem, lookup_empty.
    split; [intros [H | [_ H]]; done | by left].
Qed.

Lemma collapse_map_Err (M : gmap string (gset string)) e :
  allInhabited M →
  collapse (E:=E) (range_map M) ∅ = Err e →
  ∃ k S, M !! k = Some S ∧ (2 ≤ size S)%nat ∧
         e = ErrWithinMultipleRoots k (sort_Strings (range_set S)).
Proof.
  intros HM (k & S & Hin & H)%collapse_Err.
  - exists k, S. by rewrite <- range_map_elem.
  - intros k S Hin%range_map_elem. by apply (HM k).
Qed.

Lemma collapse_map_is_Ok (M : gmap string (gset string)) :
  (∀ k S, M !! k = Some S → ∃ f, S = {[f]}) →
  is_Ok (collapse (E:=E) (range_map M) ∅).
Proof.
  intros H. apply collapse_is_Ok.
  intros k S Hin%range_map_elem. by apply (H k).
Qed.

(** The excludes keep the entries whose directory matches no exclude. *)
Lemma excludeFilter_lookup excludeMap entries acc k f :
  NoDup entries.*1 →
  excludeFilter excludeMap entries acc !! k = Some f ↔
    ((k, f) ∈ entries ∧ MapContainsMatch excludeMap (Dir f) = false) ∨
    ((∀ f', (k, f') ∈ entries →
            MapContainsMatch excludeMap (Dir f') = true) ∧
     acc !! k = Some f).
Proof.
  revert acc. induction entries as [|[k0 f0] entries IH]; intros acc Hnd.
  - simpl. split.
    + intros H. right. split; [|done].
      intros f' Hin. by apply elem_of_nil in Hin.
    + intros [[Hin%elem_of_nil _] | [_ H]]; done.
  - apply NoDup_cons in Hnd as [Hk0 Hnd]. simpl. rewrite (IH _ Hnd).
    assert (∀ f', (k0, f') ∉ entries) as Hfresh.
    { intros f' Hin. apply Hk0, list_elem_of_fmap. by exists (k0, f'). }
    destruct (MapContainsMatch excludeMap (Dir f0)) eqn:Hex; simpl.
    + split.
      * intros [[Hin Hf] | [Hall Hacc]].
        -- left. split; [by right|done].
        -- right. split; [|done].
           intros f' [[= -> ->] | Hin]%elem_of_cons; [done|by apply Hall].
      * intros [[[[= -> ->] | Hin]%elem_of_cons Hf] | [Hall Hacc]].
        -- congruence.
        -- by left.
        -- right. split; [|done]. intros f' Hin. apply Hall. by right.
    + rewrite lookup_insert. destruct (decide (k0 = k)) as [->|Hne].
      * split.
        -- intros [[Hin _] | [_ [= <-]]]; [by destruct (Hfresh f)|].
           left. split; [by left|done].
        -- intros [[[[= ->] | Hin]%elem_of_cons Hf] | [Hall _]].
           ++ right. split; [|done]. intros f' Hin. by destruct (Hfresh f').
           ++ by destruct (Hfresh f).
           ++ rewrite Hall in Hex; [done|by left].
      * split.
        -- intros [[Hin Hf] | [Hall Hacc]].
           ++ left. split; [by right|done].
           ++ right. split; [|done].
              intros f' [[= ? _] | Hin]%elem_of_cons; [done|by apply Hall].
        -- intros [[[[= ? _] | Hin]%elem_of_cons Hf] | [Hall Hacc]].
           ++ done.
           ++ by left.
           ++ right. split; [|done]. intros f' Hin. apply Hall. by right.
Qed.

Lemma excludeFilter_map excludeMap (m : gmap string string) k f :
  excludeFilter excludeMap (range_map m) ∅ !! k = Some f ↔
    m !! k = Some f ∧ MapContainsMatch excludeMap (Dir f) = false.
Proof.
  rewrite excludeFilter_lookup by apply range_map_NoDup_fst.
  rewrite range_map_elem, lookup_empty.
  split; [intros [H | [_ H]]; done | by left].
Qed.

End collapse.

(** ** The outcomes of [GetProtoFileSetForBucket] *)

Section bucket.
Context {E : Type}.
Context {SP : Storagepath E} {ST : Storage E} {CP : ConfigProvider E}.
Context {MR : MapRange}.

Implicit Types (bucket : ReadBucket E) (M : gmap string (gset string)).

Lemma walkRoots_from_empty bucket roots M :
  walkRoots bucket roots ∅ = Ok M →
  allInhabited M ∧
  ∀ k x, x ∈ realPathsOf M k ↔ produces bucket roots k x.
Proof.
  intros HW. split.
  - eapply walkRoots_allInhabited; [apply allInhabited_empty|done].
  - intros k x. rewrite (walkRoots_realPathsOf _ _ _ _ _ _ HW).
    unfold realPathsOf at 1. rewrite lookup_empty. simpl.
    split; [intros [H%not_elem_of_empty | H]; done | by right].
Qed.

Lemma realPathsOf_lookup M k x :
  x ∈ realPathsOf M k ↔ ∃ S, M !! k = Some S ∧ x ∈ S.
Proof.
  unfold realPathsOf. destruct (M !! k) as [S|]; simpl.
  - split; [by exists S | by intros (S' & [= <-] & H)].
  - split; [by intros H%not_elem_of_empty | by intros (S' & [=] & _)].
Qed.

Lemma two_elements (S : gset string) :
  (2 ≤ size S)%nat → ∃ x y, x ∈ S ∧ y ∈ S ∧ x ≠ y.
Proof.
  intros Hsize. rewrite <- range_set_length in Hsize.
  pose proof (range_set_NoDup S) as Hnd.
  destruct (range_set S) as [|x [|y l]] eqn:Hr; simpl in Hsize; [lia..|].
  exists x, y. rewrite <- !range_set_elem, Hr.
  split; [by left|]. split; [by right; left|].
  apply NoDup_cons in Hnd as [Hx _]. intros ->. apply Hx. by left.
Qed.

(** The four outcomes, by cause. *)
Lemma bucket_walk_failure bucket roots excludes config :
  newConfig roots excludes = inr config →
  ¬ walksOk bucket (Roots config) →
  ∃ e, GetProtoFileSetForBucket bucket roots excludes =
         Err (ErrCollaborator e).
Proof.
  intros Hc Hw. unfold GetProtoFileSetForBucket. rewrite Hc. simpl.
  destruct (walkRoots bucket (Roots config) ∅) as [e|M] eqn:HW.
  - apply walkRoots_Err in HW as [e' ->]. by exists e'.
  - destruct Hw. apply (walkRoots_is_Ok _ _ ∅). by exists M.
Qed.

Lemma bucket_collision bucket roots excludes config :
  newConfig roots excludes = inr config →
  walksOk bucket (Roots config) →
  collision bucket (Roots config) →
  ∃ k paths,
    GetProtoFileSetForBucket bucket roots excludes =
      Err (ErrWithinMultipleRoots k paths) ∧
    Sorted String.le paths ∧ NoDup paths ∧ (2 ≤ length paths)%nat ∧
    ∀ f, f ∈ paths ↔ produces bucket (Roots config) k f.
Proof.
  intros Hc Hw (k0 & f1 & f2 & Hne & Hp1 & Hp2).
  unfold GetProtoFileSetForBucket. rewrite Hc. simpl.
  apply (walkRoots_is_Ok _ _ ∅) in Hw as [M HW]. rewrite HW. simpl.
  apply walkRoots_from_empty in HW as [Hinh HM].
  destruct (collapse (range_map M) ∅) as [e|m] eqn:HC; simpl.
  - apply collapse_map_Err in HC as (k & S & HS & Hsize & ->); [|done].
    exists k, (sort_Strings (range_set S)). split; [done|].
    split; [apply sort_Strings_Sorted|].
    split; [rewrite sort_Strings_Permutation; apply range_set_NoDup|].
    split; [by rewrite sort_Strings_Permutation, range_set_length|].
    intros f. rewrite sort_Strings_Permutation, range_set_elem, <- HM.
    unfold realPathsOf. by rewrite HS.
  - apply collapse_map_Ok in HC as [Hsingle _].
    apply HM, realPathsOf_lookup in Hp1 as (S & HS & Hf1).
    apply HM, realPathsOf_lookup in Hp2 as (S' & HS' & Hf2).
    rewrite HS in HS'. injection HS' as <-.
    destruct (Hsingle _ _ HS) as [f ->].
    apply elem_of_singleton in Hf1, Hf2. congruence.
Qed.

Lemma bucket_no_collision bucket roots excludes config :
  newConfig roots excludes = inr config →
  walksOk bucket (Roots config) →
  ¬ collision bucket (Roots config) →
  ∃ m : gmap string string,
    (∀ k f, m !! k = Some f ↔
              produces bucket (Roots config) k f ∧ kept config f) ∧
    GetProtoFileSetForBucket bucket roots excludes =
      if decide (m = ∅) then Err (emptyResultError config)
      else Ok {| ProtoFileSetRoots := Roots config;
                 RootFilePathToRealFilePath := m |}.
Proof.
  intros Hc Hw Hcoll.
  unfold GetProtoFileSetForBucket. rewrite Hc. simpl.
  apply (walkRoots_is_Ok _ _ ∅) in Hw as [M HW]. rewrite HW. simpl.
  apply walkRoots_from_empty in HW as [Hinh HM].
  destruct (collapse_map_is_Ok (E:=E) M) as [m HC].
  { intros k S HS.
    destruct (set_choose_L S) as [f Hf]; [by apply (Hinh k)|].
    exists f. apply set_eq. intros f'. rewrite elem_of_singleton.
    split; [|by intros ->]. intros Hf'.
    destruct (decide (f' = f)) as [|Hne]; [done|].
    destruct Hcoll. exists k, f', f. split; [done|].
    split; apply HM, realPathsOf_lookup; by exists S. }
  rewrite HC. simpl.
  apply collapse_map_Ok in HC as [Hsingle Hm].
  assert (∀ k f, m !! k = Some f ↔ produces bucket (Roots config) k f)
    as Hprod.
  { intros k f. rewrite Hm, <- HM, realPathsOf_lookup. split.
    - intros HS. exists {[f]}. split; [done|by apply elem_of_singleton].
    - intros (S & HS & Hf). destruct (Hsingle _ _ HS) as [f' ->].
      apply elem_of_singleton in Hf as ->. done. }
  unfold emptyResultError, kept, newProtoFileSet.
  destruct (decide (length (Excludes config) = 0)) as [Hex|Hex].
  - exists m. split.
    + intros k f. rewrite Hprod. split; [by split; [|left]|by intros [? _]].
    + destruct (decide (size m = 0)) as [Hsz|Hsz];
        destruct (decide (m = ∅)) as [Hm0|Hm0]; try done.
      * by apply map_size_empty_iff in Hsz.
      * by apply map_size_empty_iff in Hm0.
  - set (filtered := excludeFilter _ _ _). exists filtered. split.
    + intros k f. unfold filtered. rewrite excludeFilter_map, Hprod.
      split; [intros [? ?]; by split; [|right]|].
      intros [? [?|?]]; done.
    + destruct (decide (size filtered = 0)) as [Hsz|Hsz];
        destruct (decide (filtered = ∅)) as [Hm0|Hm0]; try done.
      * by apply map_size_empty_iff in Hsz.
      * by apply map_size_empty_iff in Hm0.
Qed.

Lemma bucket_config_failure bucket roots excludes e :
  newConfig roots excludes = inl e →
  GetProtoFileSetForBucket bucket roots excludes = Err (ErrCollaborator e).
Proof. intros Hc. unfold GetProtoFileSetForBucket. by rewrite Hc. Qed.

(** What a returned set tells. *)
Lemma bucket_Ok_inv bucket roots excludes pfs :
  GetProtoFileSetForBucket bucket roots excludes = Ok pfs →
  ∃ config,
    newConfig roots excludes = inr config ∧
    walksOk bucket (Roots config) ∧
    ¬ collision bucket (Roots config) ∧
    ProtoFileSetRoots pfs = Roots config ∧
    RootFilePathToRealFilePath pfs ≠ ∅ ∧
    ∀ k f, RootFilePathToRealFilePath pfs !! k = Some f ↔
             produces bucket (Roots config) k f ∧ kept config f.
Proof.
  intros HR.
  destruct (newConfig roots excludes) as [e|config] eqn:Hc.
  { by rewrite (bucket_config_failure _ _ _ _ Hc) in HR. }
  exists config. split; [done|].
  assert (walksOk bucket (Roots config)) as Hw.
  { apply (walkRoots_is_Ok _ _ ∅).
    unfold GetProtoFileSetForBucket in HR. rewrite Hc in HR. simpl in HR.
    apply bind_Ok in HR as (M & HW & _). by exists M. }
  split; [done|].
  assert (¬ collision bucket (Roots config)) as Hcoll.
  { intros Hcoll.
    destruct (bucket_collision bucket _ _ _ Hc Hw Hcoll) as (k & l & He & _).
    by rewrite He in HR. }
  split; [done|].
  destruct (bucket_no_collision bucket _ _ _ Hc Hw Hcoll) as (m & Hm & He).
  rewrite He in HR. destruct (decide (m = ∅)); [done|].
  injection HR as <-. done.
Qed.

End bucket.

(** ** The loop over the explicit paths *)

Section stat.
Context {E : Type}.
Context {SP : Storagepath E} {ST : Storage E} {CP : ConfigProvider E}.
Context {MR : MapRange}.

Implicit Types (bucket : ReadBucket E) (seen : gset string).

(** The loop over a concatenation runs the loop over the first part,
    then, if that went well, over the second. *)
Lemma statLoop_app bucket allow l1 l2 seen :
  statLoop bucket allow (l1 ++ l2) seen =
    match (statLoop bucket allow l1 seen).2 with
    | Err e => ((statLoop bucket allow l1 seen).1, Err e)
    | Ok seen1 =>
        (((statLoop bucket allow l1 seen).1 ++
            (statLoop bucket allow l2 seen1).1)%list,
         (statLoop bucket allow l2 seen1).2)
    end.
Proof.
  revert seen. induction l1 as [|p l1 IH]; intros seen; simpl.
  - by destruct (statLoop bucket allow l2 seen).
  - destruct (NormalizeAndValidate p) as [e|n]; [done|].
    destruct (decide (n ∈ seen)) as [|Hfresh]; [done|].
    destruct (Stat bucket n) as [e|].
    + destruct (IsNotExist e); simpl; [|done].
      destruct allow; simpl; [|done].
      rewrite IH.
      destruct (statLoop bucket true l1 seen) as [stats [e'|seen1]]; done.
    + rewrite IH.
      destruct (statLoop bucket allow l1 (seen ∪ {[n]}))
        as [stats [e'|seen1]]; done.
Qed.

(** The surviving paths are the ones seen before and the normalized
    input paths that exist. *)
Lemma statLoop_Ok_inv bucket allow paths seen stats seen' :
  statLoop bucket allow paths seen = (stats, Ok seen') →
  ∀ n, n ∈ seen' ↔
         n ∈ seen ∨
         ∃ p, p ∈ paths ∧ NormalizeAndValidate p = inr n ∧
              Stat bucket n = None.
Proof.
  revert seen stats. induction paths as [|p paths IH]; intros seen stats.
  - simpl. intros [= <- <-] n. split; [by left|].
    intros [H | (p & H%elem_of_nil & _)]; done.
  - simpl. destruct (NormalizeAndValidate p) as [e|n0] eqn:Hn; [done|].
    destruct (decide (n0 ∈ seen)) as [|Hfresh]; [done|].
    destruct (Stat bucket n0) as [e|] eqn:Hs.
    + destruct (IsNotExist e); simpl; [|done].
      destruct allow; simpl; [|done].
      destruct (statLoop bucket true paths seen) as [stats1 r] eqn:Hl.
      intros [= <- ->] n. rewrite (IH _ _ Hl). split.
      * intros [H | (q & Hq & H)]; [by left|].
        right. exists q. split; [by right|done].
      * intros [H | (q & [-> | Hq]%elem_of_cons & Hq1 & Hq2)]; [by left| |].
        -- rewrite Hn in Hq1. injection Hq1 as ->. congruence.
        -- right. by exists q.
    + destruct (statLoop bucket allow paths (seen ∪ {[n0]}))
        as [stats1 r] eqn:Hl.
      intros [= <- ->] n. rewrite (IH _ _ Hl), elem_of_union,
        elem_of_singleton. split.
      * intros [[H | ->] | (q & Hq & H)]; [by left | |].
        -- right. exists p. split; [by left|done].
        -- right. exists q. split; [by right|done].
      * intros [H | (q & [-> | Hq]%elem_of_cons & Hq1 & Hq2)].
        -- by left; left.
        -- rewrite Hn in Hq1. injection Hq1 as ->. by left; right.
        -- right. by exists q.
Qed.

(** A path that is already recorded makes the loop fail. *)
Lemma statLoop_recorded_fails bucket allow paths seen p n :
  p ∈ paths → NormalizeAndValidate p = inr n → n ∈ seen →
  is_Err (statLoop bucket allow paths seen).2.
Proof.
  revert seen. induction paths as [|q paths IH]; intros seen Hin Hn Hseen.
  - by apply elem_of_nil in Hin.
  - simpl. destruct (NormalizeAndValidate q) as [e|n0] eqn:Hq;
      [by eexists|].
    destruct (decide (n0 ∈ seen)) as [|Hfresh]; [by eexists|].
    assert (p ∈ paths) as Hin'.
    { apply elem_of_cons in Hin as [->|]; [|done]. congruence. }
    destruct (Stat bucket n0) as [e|].
    + destruct (IsNotExist e); simpl; [|by eexists].
      destruct allow; simpl; [|by eexists].
      specialize (IH seen Hin' Hn Hseen).
      by destruct (statLoop bucket true paths seen).
    + specialize (IH (seen ∪ {[n0]}) Hin' Hn).
      destruct (statLoop bucket allow paths (seen ∪ {[n0]})).
      apply IH. by apply elem_of_union_l.
Qed.

(** A [Stat] error other than "does not exist" makes the loop fail. *)
Lemma statLoop_stat_error_fails bucket allow paths seen p n e :
  p ∈ paths → NormalizeAndValidate p = inr n →
  Stat bucket n = Some e → IsNotExist e = false →
  is_Err (statLoop bucket allow paths seen).2.
Proof.
  revert seen. induction paths as [|q paths IH]; intros seen Hin Hn Hs He.
  - by apply elem_of_nil in Hin.
  - simpl. destruct (NormalizeAndValidate q) as [e0|n0] eqn:Hq;
      [by eexists|].
    destruct (decide (n0 ∈ seen)) as [|Hfresh]; [by eexists|].
    destruct (Stat bucket n0) as [e0|] eqn:Hs0.
    + destruct (IsNotExist e0) eqn:He0; simpl; [|by eexists].
      destruct allow; simpl; [|by eexists].
      assert (p ∈ paths) as Hin'.
      { apply elem_of_cons in Hin as [->|]; [|done]. congruence. }
      specialize (IH seen Hin' Hn Hs He).
      by destruct (statLoop bucket true paths seen).
    + assert (p ∈ paths) as Hin'.
      { apply elem_of_cons in Hin as [->|]; [|done]. congruence. }
      specialize (IH (seen ∪ {[n0]}) Hin' Hn Hs He).
      by destruct (statLoop bucket allow paths (seen ∪ {[n0]})).
Qed.

Lemma statLoop_allExist bucket allow paths seen stats seen' :
  allExist bucket seen →
  statLoop bucket allow paths seen = (stats, Ok seen') →
  allExist bucket seen'.
Proof.
  intros Hseen Hl n Hn.
  apply (statLoop_Ok_inv _ _ _ _ _ _ Hl) in Hn as [Hn | (p & _ & _ & Hs)];
    [by apply Hseen|done].
Qed.

(** With the tolerance flag, a path that does not exist is skipped. *)
Lemma statLoop_skip_missing bucket paths seen p n e :
  allExist bucket seen →
  NormalizeAndValidate p = inr n →
  Stat bucket n = Some e → IsNotExist e = true →
  statLoop bucket true (p :: paths) seen =
    (n :: (statLoop bucket true paths seen).1,
     (statLoop bucket true paths seen).2).
Proof.
  intros Hseen Hn Hs He. simpl. rewrite Hn.
  destruct (decide (n ∈ seen)) as [Hin|_].
  - apply Hseen in Hin. congruence.
  - rewrite Hs, He. simpl. by destruct (statLoop bucket true paths seen).
Qed.

(** The loop never reports a missing path as a duplicate. *)
Lemma statLoop_no_duplicate_of_missing bucket allow paths seen n e :
  allExist bucket seen → Stat bucket n = Some e →
  (statLoop bucket allow paths seen).2 ≠ Err (ErrDuplicateNormalized n).
Proof.
  revert seen. induction paths as [|q paths IH]; intros seen Hseen Hs.
  - done.
  - simpl. destruct (NormalizeAndValidate q) as [e0|n0] eqn:Hq; [done|].
    destruct (decide (n0 ∈ seen)) as [Hin|Hfresh].
    + simpl. intros [= ->]. apply Hseen in Hin. congruence.
    + destruct (Stat bucket n0) as [e0|] eqn:Hs0.
      * destruct (IsNotExist e0); simpl; [|done].
        destruct allow; simpl; [|done].
        specialize (IH seen Hseen Hs).
        by destruct (statLoop bucket true paths seen).
      * assert (allExist bucket (seen ∪ {[n0]})) as Hseen'.
        { intros x [Hx | ->%elem_of_singleton]%elem_of_union;
            [by apply Hseen|done]. }
        specialize (IH _ Hseen' Hs).
        by destruct (statLoop bucket allow paths (seen ∪ {[n0]})).
Qed.

End stat.

(** ** The loop over the surviving paths *)

Section resolve.
Context {E : Type}.
Context {SP : Storagepath E} {ST : Storage E} {CP : ConfigProvider E}.
Context {MR : MapRange}.

Implicit Types (acc : gmap string string) (roots : list string).

Lemma resolvesTo_functional roots p k1 k2 :
  resolvesTo (E:=E) roots p k1 → resolvesTo (E:=E) roots p k2 → k1 = k2.
Proof.
  intros (r1 & Hr1 & Hk1) (r2 & Hr2 & Hk2).
  rewrite Hr1 in Hr2. apply (inj singleton) in Hr2 as <-.
  rewrite Hk1 in Hk2. by injection Hk2.
Qed.

Lemma resolveEntry_resolved roots acc p k :
  resolvesTo (E:=E) roots p k →
  resolveEntry (SliceToMap roots) roots acc p =
    match acc !! k with
    | Some other => Err (ErrWithinAnotherRoot p k other)
    | None => Ok (<[k := p]> acc)
    end.
Proof.
  intros (root & Hroot & Hk). unfold resolveEntry.
  apply range_set_singleton in Hroot. rewrite Hroot.
  unfold logicalPath in Hk.
  destruct (check (Rel root p)) as [e|r]; simpl in *; [done|].
  destruct (check (NormalizeAndValidate r)) as [e|k']; simpl in *; [done|].
  by injection Hk as ->.
Qed.

Lemma resolveEntry_Ok_inv roots acc p acc' :
  resolveEntry (E:=E) (SliceToMap roots) roots acc p = Ok acc' →
  ∃ k, resolvesTo (E:=E) roots p k ∧ acc !! k = None ∧ acc' = <[k := p]> acc.
Proof.
  unfold resolveEntry.
  destruct (range_set (MapMatches (SliceToMap roots) p))
    as [|root [|root' l]] eqn:Hr; [done| |done].
  apply range_set_singleton in Hr.
  intros (r & Hrel & (k & Hnorm & Hacc)%bind_Ok)%bind_Ok.
  exists k. assert (resolvesTo (E:=E) roots p k) as Hres.
  { exists root. split; [done|]. unfold logicalPath. by rewrite Hrel. }
  split; [done|]. destruct (acc !! k); [done|]. by injection Hacc as <-.
Qed.

(** When every surviving path is within exactly one root, the loop
    either builds the map of the logical paths or stops at a logical
    path that is already claimed. *)
Lemma resolve_resolved roots l acc :
  NoDup l →
  (∀ p, p ∈ l → ∃ k, resolvesTo (E:=E) roots p k) →
  (∃ m, resolve (E:=E) (SliceToMap roots) roots l acc = Ok m ∧
        (∀ k f, m !! k = Some f ↔
           (f ∈ l ∧ resolvesTo (E:=E) roots f k) ∨ acc !! k = Some f) ∧
        (∀ p k, p ∈ l → resolvesTo (E:=E) roots p k → acc !! k = None) ∧
        (∀ p1 p2 k, p1 ∈ l → p2 ∈ l → resolvesTo (E:=E) roots p1 k →
           resolvesTo (E:=E) roots p2 k → p1 = p2)) ∨
  (∃ p k other,
      resolve (E:=E) (SliceToMap roots) roots l acc =
        Err (ErrWithinAnotherRoot p k other) ∧
      p ∈ l ∧ resolvesTo (E:=E) roots p k ∧
      (acc !! k = Some other ∨
       (other ∈ l ∧ other ≠ p ∧ resolvesTo (E:=E) roots other k ∧
        ∃ l1 l2, l = (l1 ++ p :: l2)%list ∧ other ∈ l1))).
Proof.
  revert acc. induction l as [|p l IH]; intros acc Hnd Hall.
  - left. exists acc. split; [done|]. split; [|split].
    + intros k f. split; [by right|].
      intros [[H%elem_of_nil _] | H]; done.
    + intros p k H. by apply elem_of_nil in H.
    + intros p1 p2 k H. by apply elem_of_nil in H.
  - apply NoDup_cons in Hnd as [Hp Hnd].
    destruct (Hall p) as [k Hk]; [by left|].
    simpl. rewrite (resolveEntry_resolved _ _ _ _ Hk).
    destruct (acc !! k) as [other|] eqn:Hacc; simpl.
    { right. exists p, k, other. split; [done|]. split; [by left|].
      split; [done|by left]. }
    destruct (IH (<[k := p]> acc) Hnd) as
      [(m & Hm & Hlookup & Hfresh & Hinj) | (p' & k' & other & He & Hp' & Hk' & Hother)].
    { intros q Hq. apply Hall. by right. }
    + left. exists m. split; [done|]. split; [|split].
      * intros k' f. rewrite Hlookup, lookup_insert, elem_of_cons.
        destruct (decide (k = k')) as [<-|Hne].
        -- split.
           ++ intros [[Hf Hfk] | [= <-]].
              ** left. split; [by right|done].
              ** left. split; [by left|done].
           ++ intros [[[-> | Hf] Hfk] | Hf]; [by right| |congruence].
              left. done.
        -- split.
           ++ intros [[Hf Hfk] | Hf]; [|by right].
              left. split; [by right|done].
           ++ intros [[[-> | Hf] Hfk] | Hf]; [|by left|by right].
              destruct Hne. by eapply resolvesTo_functional.
      * intros q kq [-> | Hq]%elem_of_cons Hkq.
        -- by rewrite <- (resolvesTo_functional _ _ _ _ Hk Hkq).
        -- specialize (Hfresh q kq Hq Hkq).
           rewrite lookup_insert in Hfresh.
           by destruct (decide (k = kq)).
      * assert (∀ q, q ∈ l → ¬ resolvesTo (E:=E) roots q k) as Hclaimed.
        { intros q Hq Hqk. specialize (Hfresh q k Hq Hqk).
          by rewrite lookup_insert_eq in Hfresh. }
        intros p1 p2 k0 [-> | H1]%elem_of_cons [-> | H2]%elem_of_cons
          Hk1 Hk2; [done| | |by eapply Hinj].
        -- rewrite <- (resolvesTo_functional _ _ _ _ Hk Hk1) in Hk2.
           by destruct (Hclaimed p2).
        -- rewrite <- (resolvesTo_functional _ _ _ _ Hk Hk2) in Hk1.
           by destruct (Hclaimed p1).
    + right. exists p', k', other. split; [done|].
      split; [by right|]. split; [done|].
      destruct Hother as [Hother | (Ho & Hne & Hko & l1 & l2 & -> & Hl1)].
      * rewrite lookup_insert in Hother.
        destruct (decide (k = k')) as [<-|Hne]; [|by left].
        injection Hother as <-. right. split; [by left|].
        split; [by intros ->|]. split; [done|].
        apply list_elem_of_split in Hp' as (l1 & l2 & ->).
        exists (p :: l1), l2. split; [done|by left].
      * right. split; [by right|]. split; [done|]. split; [done|].
        exists (p :: l1), l2. split; [done|by right].
Qed.

(** A claimed logical path makes the loop fail, whatever the other
    paths do. *)
Lemma resolve_claimed_fails roots l acc p k :
  p ∈ l → resolvesTo (E:=E) roots p k → is_Some (acc !! k) →
  is_Err (resolve (E:=E) (SliceToMap roots) roots l acc).
Proof.
  revert acc. induction l as [|q l IH]; intros acc Hp Hk Hacc.
  - by apply elem_of_nil in Hp.
  - simpl.
    destruct (resolveEntry (SliceToMap roots) roots acc q)
      as [e|acc1] eqn:Hq; simpl; [by eexists|].
    apply resolveEntry_Ok_inv in Hq as (kq & Hkq & Hfresh & ->).
    apply elem_of_cons in Hp as [-> | Hp].
    + rewrite (resolvesTo_functional _ _ _ _ Hk Hkq), Hfresh in Hacc.
      by destruct Hacc.
    + apply IH; [done..|]. rewrite lookup_insert.
      destruct (decide (kq = k)); [by eexists|done].
Qed.

Lemma resolve_collision_fails roots l acc p1 p2 k :
  p1 ∈ l → p2 ∈ l → p1 ≠ p2 →
  resolvesTo (E:=E) roots p1 k → resolvesTo (E:=E) roots p2 k →
  is_Err (resolve (E:=E) (SliceToMap roots) roots l acc).
Proof.
  revert acc. induction l as [|q l IH]; intros acc H1 H2 Hne Hk1 Hk2.
  - by apply elem_of_nil in H1.
  - simpl.
    destruct (resolveEntry (SliceToMap roots) roots acc q)
      as [e|acc1] eqn:Hq; simpl; [by eexists|].
    apply resolveEntry_Ok_inv in Hq as (kq & Hkq & Hfresh & ->).
    apply elem_of_cons in H1 as [-> | H1], H2 as [-> | H2]; [done| | |].
    + rewrite <- (resolvesTo_functional _ _ _ _ Hk1 Hkq).
      apply (resolve_claimed_fails _ _ _ p2 k); [done..|].
      by rewrite lookup_insert_eq.
    + rewrite <- (resolvesTo_functional _ _ _ _ Hk2 Hkq).
      apply (resolve_claimed_fails _ _ _ p1 k); [done..|].
      by rewrite lookup_insert_eq.
    + by apply IH.
Qed.

(** What a built map tells, without any assumption on the paths. *)
Lemma resolve_Ok_inv roots l acc m :
  resolve (E:=E) (SliceToMap roots) roots l acc = Ok m →
  ∀ p, p ∈ l → ∃ k, resolvesTo (E:=E) roots p k.
Proof.
  revert acc. induction l as [|q l IH]; intros acc; simpl.
  - intros _ p H. by apply elem_of_nil in H.
  - intros (acc1 & Hq & Hl)%bind_Ok p [-> | Hp]%elem_of_cons.
    + apply resolveEntry_Ok_inv in Hq as (k & Hk & _). by exists k.
    + by eapply IH.
Qed.

End resolve.

(** ** The outcomes of [GetProtoFileSetForRealFilePaths] *)

Section explicit.
Context {E : Type}.
Context {SP : Storagepath E} {ST : Storage E} {CP : ConfigProvider E}.
Context {MR : MapRange}.

Implicit Types (bucket : ReadBucket E) (S : gset string).

Lemma explicit_config_failure bucket roots paths allow e :
  newConfig roots [] = inl e →
  GetProtoFileSetForRealFilePaths bucket roots paths allow =
    ([], Err (ErrCollaborator e)).
Proof. intros Hc. unfold GetProtoFileSetForRealFilePaths. by rewrite Hc. Qed.

Lemma explicit_stat_failure bucket roots paths allow config stats e :
  newConfig roots [] = inr config →
  statLoop bucket allow paths ∅ = (stats, Err e) →
  GetProtoFileSetForRealFilePaths bucket roots paths allow = (stats, Err e).
Proof.
  intros Hc Hl. unfold GetProtoFileSetForRealFilePaths. by rewrite Hc, Hl.
Qed.

Lemma explicit_survivors bucket roots paths allow config stats S :
  newConfig roots [] = inr config →
  statLoop bucket allow paths ∅ = (stats, Ok S) →
  GetProtoFileSetForRealFilePaths bucket roots paths allow =
    (stats,
     do m <- resolve (SliceToMap (Roots config)) (Roots config)
               (range_set S) ∅;
     if decide (size m = 0) then Err ErrNoInputFilesSpecified
     else newProtoFileSet (Roots config) m).
Proof.
  intros Hc Hl. unfold GetProtoFileSetForRealFilePaths. by rewrite Hc, Hl.
Qed.

(** No surviving path: the "no input files specified" error. *)
Lemma explicit_empty bucket roots paths allow config stats :
  newConfig roots [] = inr config →
  statLoop bucket allow paths ∅ = (stats, Ok ∅) →
  GetProtoFileSetForRealFilePaths bucket roots paths allow =
    (stats, Err ErrNoInputFilesSpecified).
Proof.
  intros Hc Hl. rewrite (explicit_survivors _ _ _ _ _ _ _ Hc Hl).
  by rewrite (proj2 (range_set_nil ∅)).
Qed.

Lemma explicit_collision_fails bucket roots paths allow config stats S
    p1 p2 k :
  newConfig roots [] = inr config →
  statLoop bucket allow paths ∅ = (stats, Ok S) →
  p1 ∈ S → p2 ∈ S → p1 ≠ p2 →
  resolvesTo (E:=E) (Roots config) p1 k →
  resolvesTo (E:=E) (Roots config) p2 k →
  is_Err (GetProtoFileSetForRealFilePaths bucket roots paths allow).2.
Proof.
  intros Hc Hl H1 H2 Hne Hk1 Hk2.
  rewrite (explicit_survivors _ _ _ _ _ _ _ Hc Hl). simpl.
  destruct (resolve_collision_fails (E:=E) (Roots config) (range_set S) ∅
              p1 p2 k) as [e He]; [by rewrite ?range_set_elem..|done|done|done|].
  rewrite He. by eexists.
Qed.

(** Every surviving path within exactly one root, no two with the same
    logical path, and at least one of them: the set is returned. *)
Lemma explicit_resolved bucket roots paths allow config stats S :
  newConfig roots [] = inr config →
  statLoop bucket allow paths ∅ = (stats, Ok S) →
  (∀ p, p ∈ S → ∃ k, resolvesTo (E:=E) (Roots config) p k) →
  (∀ p1 p2 k, p1 ∈ S → p2 ∈ S →
     resolvesTo (E:=E) (Roots config) p1 k →
     resolvesTo (E:=E) (Roots config) p2 k → p1 = p2) →
  S ≠ ∅ →
  ∃ m : gmap string string,
    GetProtoFileSetForRealFilePaths bucket roots paths allow =
      (stats, Ok {| ProtoFileSetRoots := Roots config;
                    RootFilePathToRealFilePath := m |}) ∧
    m ≠ ∅ ∧
    ∀ k f, m !! k = Some f ↔ f ∈ S ∧ resolvesTo (E:=E) (Roots config) f k.
Proof.
  intros Hc Hl Hall Hinj Hne.
  rewrite (explicit_survivors _ _ _ _ _ _ _ Hc Hl).
  destruct (resolve_resolved (E:=E) (Roots config) (range_set S) ∅)
    as [(m & Hm & Hlookup & _) | (p & k' & other & He & Hp & Hk & Ho)].
  - apply range_set_NoDup.
  - intros p Hp%range_set_elem. by apply Hall.
  - assert (∀ k f, m !! k = Some f ↔
                     f ∈ S ∧ resolvesTo (E:=E) (Roots config) f k) as Hm'.
    { intros k f. rewrite Hlookup, range_set_elem, lookup_empty.
      split; [intros [H | H]; done | by left]. }
    assert (m ≠ ∅) as Hm0.
    { apply set_choose_L in Hne as [p Hp].
      destruct (Hall p Hp) as [k Hk].
      intros Hempty. pose proof (proj2 (Hm' k p) (conj Hp Hk)) as Hkp.
      by rewrite Hempty, lookup_empty in Hkp. }
    exists m. rewrite Hm. simpl. split; [|done].
    destruct (decide (size m = 0)) as [Hsz|_]; [|done].
    by apply map_size_empty_iff in Hsz.
  - destruct Ho as [Ho | (Ho & Hne' & Hko & _)];
      [by rewrite lookup_empty in Ho|].
    destruct Hne'. apply (Hinj other p k'); by rewrite <- ?range_set_elem.
Qed.

(** What a returned set tells. *)
Lemma explicit_Ok_inv bucket roots paths allow pfs :
  (GetProtoFileSetForRealFilePaths bucket roots paths allow).2 = Ok pfs →
  ∃ config stats S,
    newConfig roots [] = inr config ∧
    statLoop bucket allow paths ∅ = (stats, Ok S) ∧
    ProtoFileSetRoots pfs = Roots config ∧
    RootFilePathToRealFilePath pfs ≠ ∅ ∧
    (∀ k f, RootFilePathToRealFilePath pfs !! k = Some f ↔
              f ∈ S ∧ resolvesTo (E:=E) (Roots config) f k) ∧
    (∀ p, p ∈ S → ∃ k, resolvesTo (E:=E) (Roots config) p k) ∧
    (∀ p1 p2 k, p1 ∈ S → p2 ∈ S →
       resolvesTo (E:=E) (Roots config) p1 k →
       resolvesTo (E:=E) (Roots config) p2 k → p1 = p2).
Proof.
  intros HR.
  destruct (newConfig roots []) as [e|config] eqn:Hc.
  { by rewrite (explicit_config_failure _ _ _ _ _ Hc) in HR. }
  destruct (statLoop bucket allow paths ∅) as [stats [e|S]] eqn:Hl.
  { by rewrite (explicit_stat_failure _ _ _ _ _ _ _ Hc Hl) in HR. }
  exists config, stats, S. split; [done|]. split; [done|].
  rewrite (explicit_survivors _ _ _ _ _ _ _ Hc Hl) in HR. simpl in HR.
  apply bind_Ok in HR as (m & Hm & HR).
  destruct (decide (size m = 0)) as [|Hsz]; [done|]. injection HR as <-.
  simpl. split; [done|].
  split; [intros ->; by rewrite map_size_empty in Hsz|].
  assert (∀ p, p ∈ S → ∃ k, resolvesTo (E:=E) (Roots config) p k) as Hall.
  { intros p Hp. eapply resolve_Ok_inv; [done|by apply range_set_elem]. }
  destruct (resolve_resolved (E:=E) (Roots config) (range_set S) ∅)
    as [(m' & Hm' & Hlookup & _ & Hinj) | (p & k' & other & He & _)].
  - apply range_set_NoDup.
  - intros p Hp%range_set_elem. by apply Hall.
  - rewrite Hm in Hm'. injection Hm' as <-. split; [|split; [done|]].
    + intros k f. rewrite Hlookup, range_set_elem, lookup_empty.
      split; [intros [H | H]; done | by left].
    + intros p1 p2 k H1 H2. apply Hinj; by rewrite range_set_elem.
  - by rewrite Hm in He.
Qed.

End explicit.

(** ** Independence of the iteration order *)

Section order.
Context {E : Type}.
Context {SP : Storagepath E} {ST : Storage E} {CP : ConfigProvider E}.

Implicit Types (bucket : ReadBucket E).

Lemma walksOk_cases bucket roots :
  walksOk bucket roots ∨ ¬ walksOk bucket roots.
Proof.
  destruct (is_Ok_or_Err (walkRoots bucket roots ∅)) as [H|H].
  - left. by apply (walkRoots_is_Ok _ _ ∅).
  - right. intros Hw%(walkRoots_is_Ok _ _ ∅). by apply is_Err_not_Ok in H.
Qed.

Lemma collision_cases {MR : MapRange} bucket roots :
  walksOk bucket roots →
  collision bucket roots ∨ ¬ collision bucket roots.
Proof.
  intros [M HW]%(walkRoots_is_Ok _ _ ∅).
  apply walkRoots_from_empty in HW as [Hinh HM].
  destruct (collapse (E:=E) (range_map M) ∅) as [e|m] eqn:HC.
  - left. apply collapse_map_Err in HC as (k & S & HS & Hsize & _); [|done].
    apply two_elements in Hsize as (x & y & Hx & Hy & Hne).
    exists k, x, y. split; [done|].
    split; apply HM, realPathsOf_lookup; by exists S.
  - right. intros (k & f1 & f2 & Hne & Hp1 & Hp2).
    apply collapse_map_Ok in HC as [Hsingle _].
    apply HM, realPathsOf_lookup in Hp1 as (S & HS & Hf1).
    apply HM, realPathsOf_lookup in Hp2 as (S' & HS' & Hf2).
    rewrite HS in HS'. injection HS' as <-.
    destruct (Hsingle _ _ HS) as [f ->].
    apply elem_of_singleton in Hf1, Hf2. congruence.
Qed.

(** Unless a collision is reported, the outcome is the same under every
    iteration order. *)
Lemma bucket_any_order (MR1 MR2 : MapRange) bucket roots excludes :
  (∀ k paths, GetProtoFileSetForBucket (MR:=MR1) bucket roots excludes ≠
                Err (ErrWithinMultipleRoots k paths)) →
  GetProtoFileSetForBucket (MR:=MR2) bucket roots excludes =
    GetProtoFileSetForBucket (MR:=MR1) bucket roots excludes.
Proof.
  intros Hnc.
  destruct (newConfig roots excludes) as [e|config] eqn:Hc.
  { by rewrite !(bucket_config_failure _ _ _ _ Hc). }
  destruct (walksOk_cases bucket (Roots config)) as [Hw|Hw].
  - destruct (collision_cases (MR:=MR1) bucket (Roots config) Hw)
      as [Hcoll|Hcoll].
    + destruct (bucket_collision (MR:=MR1) bucket _ _ _ Hc Hw Hcoll)
        as (k & paths & He & _).
      by destruct (Hnc k paths).
    + destruct (bucket_no_collision (MR:=MR1) bucket _ _ _ Hc Hw Hcoll)
        as (m1 & Hm1 & ->).
      destruct (bucket_no_collision (MR:=MR2) bucket _ _ _ Hc Hw Hcoll)
        as (m2 & Hm2 & ->).
      assert (m2 = m1) as ->; [|done].
      apply map_eq. intros k. apply option_eq. intros f.
      by rewrite Hm1, Hm2.
  - unfold GetProtoFileSetForBucket. rewrite Hc. simpl.
    destruct (walkRoots bucket (Roots config) ∅) as [e|M] eqn:HW; [done|].
    destruct Hw. apply (walkRoots_is_Ok _ _ ∅). by exists M.
Qed.

Lemma bucket_Ok_any_order (MR1 MR2 : MapRange) bucket roots excludes pfs :
  GetProtoFileSetForBucket (MR:=MR1) bucket roots excludes = Ok pfs →
  GetProtoFileSetForBucket (MR:=MR2) bucket roots excludes = Ok pfs.
Proof.
  intros H. rewrite <- H. apply bucket_any_order.
  intros k paths. by rewrite H.
Qed.

End order.

(** ** The resolved set of the root scan *)

Import InMemory.

(** The reference validator delivers roots that do not overlap: a bucket
    of files enumerates no file under two validated roots. *)
Lemma stripPrefix_comparable (a b l : list string) :
  is_Some (stripPrefix a l) → is_Some (stripPrefix b l) →
  is_Some (stripPrefix a b) ∨ is_Some (stripPrefix b a).
Proof.
  revert b l. induction a as [|x a IH]; intros b l Ha Hb.
  - left. by eexists.
  - destruct b as [|z b]; [right; by eexists|].
    destruct l as [|y l]; simpl in *; [by destruct Ha|].
    destruct (decide (x = y)) as [->|]; [|by destruct Ha].
    destruct (decide (z = y)) as [->|]; [|by destruct Hb].
    rewrite decide_True by done. by apply (IH b l).
Qed.

Lemma rootsOverlap_false roots r1 r2 :
  rootsOverlap roots = false → r1 ∈ roots → r2 ∈ roots → r1 ≠ r2 →
  isWithin r1 r2 = false.
Proof.
  intros Hno H1 H2 Hne. destruct (isWithin r1 r2) eqn:Hw; [|done].
  assert (rootsOverlap roots = true) as Hyes; [|congruence].
  apply existsb_exists. exists r1. split; [by apply list_elem_of_In|].
  apply existsb_exists. exists r2. split; [by apply list_elem_of_In|].
  by rewrite Hw, bool_decide_eq_true_2.
Qed.

Lemma validated_roots_disjoint_walks files roots excludes config r1 r2 f :
  validateConfig roots excludes = inr config →
  r1 ∈ Roots config → r2 ∈ Roots config →
  f ∈ (Walk (bucketOf files) r1).1 → f ∈ (Walk (bucketOf files) r2).1 →
  r1 = r2.
Proof.
  intros Hc H1 H2 [Hf1 _]%list_elem_of_filter [Hf2 _]%list_elem_of_filter.
  assert (rootsOverlap (Roots config) = false) as Hno.
  { unfold validateConfig in Hc.
    destruct (normalizeAll roots) as [|rs]; [done|].
    destruct (normalizeAll excludes) as [|es]; [done|].
    destruct (decide (remove_dups rs = [])); [done|].
    destruct (rootsOverlap (remove_dups rs)) eqn:Ho; [done|].
    by injection Hc as <-. }
  destruct (decide (r1 = r2)) as [|Hne]; [done|].
  unfold isWithin in Hf1, Hf2.
  apply bool_decide_eq_true in Hf1, Hf2.
  destruct (stripPrefix_comparable _ _ _ Hf1 Hf2) as [Hw|Hw].
  - pose proof (rootsOverlap_false _ r1 r2 Hno H1 H2 Hne) as Hfalse.
    unfold isWithin in Hfalse. by rewrite bool_decide_eq_true_2 in Hfalse.
  - pose proof (rootsOverlap_false _ r2 r1 Hno H2 H1 (not_eq_sym Hne))
      as Hfalse.
    unfold isWithin in Hfalse. by rewrite bool_decide_eq_true_2 in Hfalse.
Qed.

(** C1: for a validated configuration without excludes whose roots do not
    overlap (no real path is enumerated under two of them), every file
    with the [.proto] extension enumerated under a root is, in the set
    [GetProtoFileSetForBucket] returns, the value of exactly one logical
    path, its path relative to the root that contains it; every entry of
    the set comes from such a file; and a set is returned as soon as the
    enumerations succeed, no two files share a logical path and there is a
    schema file.  With roots [proto] and the files [proto/foo/a.proto] and
    [proto/foo/b.proto] the result is the map of [foo/a.proto] and
    [foo/b.proto] to them, in every iteration order. *)
Theorem bucket_every_schema_file_once
  {E} {SP : Storagepath E} {ST : Storage E} {CP : ConfigProvider E}
  {MR : MapRange} (bucket : ReadBucket E) (roots excludes : list string)
  (config : Config) :
  newConfig roots excludes = inr config →
  Excludes config = [] →
  (∀ root1 root2 f, root1 ∈ Roots config → root2 ∈ Roots config →
     f ∈ (Walk bucket root1).1 → f ∈ (Walk bucket root2).1 → root1 = root2) →
  (∀ pfs, GetProtoFileSetForBucket bucket roots excludes = Ok pfs →
     (∀ root f, root ∈ Roots config → f ∈ (Walk bucket root).1 →
        Ext f = ".proto" →
        ∃ k, logicalPath root f = Ok k ∧
             ∀ k', RootFilePathToRealFilePath pfs !! k' = Some f ↔ k' = k) ∧
     (∀ k f, RootFilePathToRealFilePath pfs !! k = Some f →
        produces bucket (Roots config) k f)) ∧
  (walksOk bucket (Roots config) → ¬ collision bucket (Roots config) →
   (∃ root f, root ∈ Roots config ∧ f ∈ (Walk bucket root).1 ∧
              Ext f = ".proto") →
   is_Ok (GetProtoFileSetForBucket bucket roots excludes)) ∧
  (∀ MR' : MapRange,
     GetProtoFileSetForBucket (MR:=MR')
       (bucketOf ["proto/foo/a.proto"; "proto/foo/b.proto"])
       ["proto"] [] =
     Ok {| ProtoFileSetRoots := ["proto"];
           RootFilePathToRealFilePath :=
             {[ "foo/a.proto" := "proto/foo/a.proto";
                "foo/b.proto" := "proto/foo/b.proto" ]} |}).
Proof.
  intros Hc Hex Hdisjoint.
  assert (∀ f, kept config f) as Hkept.
  { intros f. left. by rewrite Hex. }
  split; [|split].
  - intros pfs (config' & Hc' & Hw & _ & _ & _ & Hm)%bucket_Ok_inv.
    rewrite Hc in Hc'. injection Hc' as <-. split.
    + intros root f Hroot Hf Hext.
      destruct (Hw root Hroot) as [_ Hfiles].
      destruct (Hfiles f Hf Hext) as [k Hk]. exists k. split; [done|].
      intros k'. rewrite Hm. split.
      * intros [(root' & Hroot' & Hf' & _ & Hk') _].
        rewrite (Hdisjoint root' root f) in Hk' by done. congruence.
      * intros ->. split; [|done]. by exists root.
    + intros k f [Hp _]%Hm. done.
  - intros Hw Hcoll (root & f & Hroot & Hf & Hext).
    destruct (bucket_no_collision bucket _ _ _ Hc Hw Hcoll) as (m & Hm & ->).
    destruct (Hw root Hroot) as [_ Hfiles].
    destruct (Hfiles f Hf Hext) as [k Hk].
    destruct (decide (m = ∅)) as [->|_]; [|by eexists].
    assert ((∅ : gmap string string) !! k = Some f) as Hempty;
      [|by rewrite lookup_empty in Hempty].
    apply Hm. split; [|done]. by exists root.
  - intros MR'. apply (bucket_Ok_any_order rangeForward).
    vm_compute. reflexivity.
Qed.

(** The scenario of C1 satisfies the assumptions of the theorem. *)
Lemma bucket_every_schema_file_once_witness :
  newConfig ["proto"] [] = inr {| Roots := ["proto"]; Excludes := [] |} ∧
  ∀ pfs,
    GetProtoFileSetForBucket (MR:=rangeForward)
      (bucketOf ["proto/foo/a.proto"; "proto/foo/b.proto"]) ["proto"] [] =
      Ok pfs →
    ∀ k f, RootFilePathToRealFilePath pfs !! k = Some f →
      produces (bucketOf ["proto/foo/a.proto"; "proto/foo/b.proto"])
        ["proto"] k f.
Proof.
  split; [reflexivity|].
  refine (λ pfs H, proj2 (proj1
    (bucket_every_schema_file_once (MR:=rangeForward)
       (bucketOf ["proto/foo/a.proto"; "proto/foo/b.proto"]) ["proto"] []
       {| Roots := ["proto"]; Excludes := [] |} _ _ _) pfs H)).
  - reflexivity.
  - reflexivity.
  - intros root1 root2 f H1%list_elem_of_singleton H2%list_elem_of_singleton.
    intros _ _. congruence.
Defined.

Lemma no_collision_of_no_report
  {E} {SP : Storagepath E} {ST : Storage E} {CP : ConfigProvider E}
  {MR : MapRange} (bucket : ReadBucket E) roots excludes config :
  newConfig roots excludes = inr config →
  walksOk bucket (Roots config) →
  (∀ k paths, GetProtoFileSetForBucket bucket roots excludes ≠
                Err (ErrWithinMultipleRoots k paths)) →
  ¬ collision bucket (Roots config).
Proof.
  intros Hc Hw Hnr Hcoll.
  destruct (bucket_collision bucket _ _ _ Hc Hw Hcoll) as (k & paths & He & _).
  by destruct (Hnr k paths).
Qed.

(** C2: when the enumerations succeed and two distinct roots each hold a
    schema file with the same logical path, [GetProtoFileSetForBucket]
    fails with the "within multiple roots" error of a logical path, whose
    list holds exactly the real paths of that logical path, without
    repetition, sorted; this holds for every list of excludes, kept or
    excluded files alike. *)
Theorem bucket_collision_reported
  {E} {SP : Storagepath E} {ST : Storage E} {CP : ConfigProvider E}
  {MR : MapRange} (bucket : ReadBucket E) (roots excludes : list string)
  (config : Config) (root1 root2 f1 f2 k : string) :
  newConfig roots excludes = inr config →
  walksOk bucket (Roots config) →
  root1 ∈ Roots config → root2 ∈ Roots config → root1 ≠ root2 →
  f1 ∈ (Walk bucket root1).1 → f2 ∈ (Walk bucket root2).1 →
  Ext f1 = ".proto" → Ext f2 = ".proto" → f1 ≠ f2 →
  logicalPath root1 f1 = Ok k → logicalPath root2 f2 = Ok k →
  ∃ k' paths,
    GetProtoFileSetForBucket bucket roots excludes =
      Err (ErrWithinMultipleRoots k' paths) ∧
    Sorted String.le paths ∧ NoDup paths ∧ (2 ≤ length paths)%nat ∧
    ∀ f, f ∈ paths ↔ produces bucket (Roots config) k' f.
Proof.
  intros Hc Hw Hr1 Hr2 _ Hf1 Hf2 He1 He2 Hne Hk1 Hk2.
  apply (bucket_collision bucket _ _ _ Hc Hw).
  exists k, f1, f2. split; [done|]. split; [by exists root1|by exists root2].
Qed.

(** Roots [a] and [b] with [a/x.proto] and [b/x.proto], and the exclude
    [a]: the collision is reported although [a/x.proto] is excluded. *)
Lemma bucket_collision_reported_witness :
  ∃ k' paths,
    GetProtoFileSetForBucket (MR:=rangeForward)
      (bucketOf ["a/x.proto"; "b/x.proto"]) ["a"; "b"] ["a"] =
      Err (ErrWithinMultipleRoots k' paths) ∧
    Sorted String.le paths ∧ NoDup paths ∧ (2 ≤ length paths)%nat ∧
    ∀ f, f ∈ paths ↔
         produces (bucketOf ["a/x.proto"; "b/x.proto"]) ["a"; "b"] k' f.
Proof.
  apply (bucket_collision_reported (MR:=rangeForward)
           (bucketOf ["a/x.proto"; "b/x.proto"]) ["a"; "b"] ["a"]
           {| Roots := ["a"; "b"]; Excludes := ["a"] |}
           "a" "b" "a/x.proto" "b/x.proto" "x.proto").
  - reflexivity.
  - apply (walkRoots_is_Ok _ _ ∅). eexists. vm_compute. reflexivity.
  - by left.
  - by right; left.
  - discriminate.
  - by left.
  - by left.
  - reflexivity.
  - reflexivity.
  - discriminate.
  - reflexivity.
  - reflexivity.
Defined.

(** C3: when the resolution without excludes and the resolution with
    excludes both return a set for the same roots, every entry of the set
    with excludes is an entry of the set without. *)
Theorem exclude_monotone
  {E} {SP : Storagepath E} {ST : Storage E} {CP : ConfigProvider E}
  {MR : MapRange} (bucket : ReadBucket E) (roots excludes : list string)
  (config0 config : Config) (pfs0 pfs : ProtoFileSet) :
  newConfig roots [] = inr config0 → Excludes config0 = [] →
  newConfig roots excludes = inr config → Roots config = Roots config0 →
  GetProtoFileSetForBucket bucket roots [] = Ok pfs0 →
  GetProtoFileSetForBucket bucket roots excludes = Ok pfs →
  RootFilePathToRealFilePath pfs ⊆ RootFilePathToRealFilePath pfs0.
Proof.
  intros Hc0 Hex0 Hc Hroots H0 H.
  apply bucket_Ok_inv in H0 as (c0 & Hc0' & _ & _ & _ & _ & Hm0).
  apply bucket_Ok_inv in H as (c & Hc' & _ & _ & _ & _ & Hm).
  rewrite Hc0 in Hc0'. injection Hc0' as <-.
  rewrite Hc in Hc'. injection Hc' as <-.
  apply map_subseteq_spec. intros k f [Hp _]%Hm.
  apply Hm0. rewrite <- Hroots. split; [done|]. left. by rewrite Hex0.
Qed.

(** Root [proto] with [proto/foo/a.proto] and [proto/bar/b.proto]: the
    exclude [proto/foo] leaves the entry of [bar/b.proto]. *)
Lemma exclude_monotone_witness :
  GetProtoFileSetForBucket (MR:=rangeForward)
    (bucketOf ["proto/foo/a.proto"; "proto/bar/b.proto"]) ["proto"]
    ["proto/foo"] =
    Ok {| ProtoFileSetRoots := ["proto"];
          RootFilePathToRealFilePath :=
            {[ "bar/b.proto" := "proto/bar/b.proto" ]} |} ∧
  ({[ "bar/b.proto" := "proto/bar/b.proto" ]} : gmap string string) ⊆
    {[ "foo/a.proto" := "proto/foo/a.proto";
       "bar/b.proto" := "proto/bar/b.proto" ]}.
Proof.
  split; [vm_compute; reflexivity|].
  refine (exclude_monotone (MR:=rangeForward)
           (bucketOf ["proto/foo/a.proto"; "proto/bar/b.proto"]) ["proto"]
           ["proto/foo"]
           {| Roots := ["proto"]; Excludes := [] |}
           {| Roots := ["proto"]; Excludes := ["proto/foo"] |}
           {| ProtoFileSetRoots := ["proto"];
              RootFilePathToRealFilePath :=
                {[ "foo/a.proto" := "proto/foo/a.proto";
                   "bar/b.proto" := "proto/bar/b.proto" ]} |}
           {| ProtoFileSetRoots := ["proto"];
              RootFilePathToRealFilePath :=
                {[ "bar/b.proto" := "proto/bar/b.proto" ]} |} _ _ _ _ _ _).
  - reflexivity.
  - reflexivity.
  - reflexivity.
  - reflexivity.
  - vm_compute. reflexivity.
  - vm_compute. reflexivity.
Defined.

(** C4: when the enumerations succeed without collision and no schema file
    passes the excludes, [GetProtoFileSetForBucket] fails: with the "match
    roots" error when the configuration has no exclude, and with the
    different "match roots and excludes" error when it has some.  With
    root [proto], exclude [proto/foo] and the files [proto/foo/a.proto]
    and [proto/foo/b.proto] it fails with the second one, in every
    iteration order. *)
Theorem bucket_empty_result_errors
  {E} {SP : Storagepath E} {ST : Storage E} {CP : ConfigProvider E}
  {MR : MapRange} (bucket : ReadBucket E) (roots excludes : list string)
  (config : Config) :
  newConfig roots excludes = inr config →
  walksOk bucket (Roots config) →
  ¬ collision bucket (Roots config) →
  (∀ k f, produces bucket (Roots config) k f → ¬ kept config f) →
  (Excludes config = [] →
   GetProtoFileSetForBucket bucket roots excludes =
     Err ErrNoInputFilesRoots) ∧
  (Excludes config ≠ [] →
   GetProtoFileSetForBucket bucket roots excludes =
     Err ErrNoInputFilesRootsExcludes) ∧
  ErrNoInputFilesRoots (E:=E) ≠ ErrNoInputFilesRootsExcludes ∧
  (∀ MR' : MapRange,
     GetProtoFileSetForBucket (MR:=MR')
       (bucketOf ["proto/foo/a.proto"; "proto/foo/b.proto"])
       ["proto"] ["proto/foo"] =
     Err ErrNoInputFilesRootsExcludes).
Proof.
  intros Hc Hw Hcoll Hnone.
  destruct (bucket_no_collision bucket _ _ _ Hc Hw Hcoll) as (m & Hm & ->).
  assert (m = ∅) as ->.
  { apply map_empty. intros k. apply eq_None_not_Some. intros [f Hf].
    apply Hm in Hf as [Hp Hk]. by apply (Hnone k f). }
  rewrite decide_True by done. unfold emptyResultError.
  split; [|split; [|split]].
  - intros ->. done.
  - intros Hex. rewrite decide_False; [done|].
    by destruct (Excludes config).
  - discriminate.
  - intros MR'. rewrite (bucket_any_order rangeForward MR').
    + vm_compute. reflexivity.
    + intros k paths. vm_compute. discriminate.
Qed.

(** The scenario of C4 satisfies the assumptions of the theorem. *)
Lemma bucket_empty_result_errors_witness :
  Excludes {| Roots := ["proto"]; Excludes := ["proto/foo"] |} ≠ [] ∧
  GetProtoFileSetForBucket (MR:=rangeForward)
    (bucketOf ["proto/foo/a.proto"; "proto/foo/b.proto"])
    ["proto"] ["proto/foo"] =
    Err ErrNoInputFilesRootsExcludes.
Proof.
  split; [discriminate|].
  refine (proj1 (proj2
    (bucket_empty_result_errors (MR:=rangeForward)
       (bucketOf ["proto/foo/a.proto"; "proto/foo/b.proto"])
       ["proto"] ["proto/foo"]
       {| Roots := ["proto"]; Excludes := ["proto/foo"] |} _ _ _ _)) _).
  - reflexivity.
  - apply (walkRoots_is_Ok _ _ ∅). eexists. vm_compute. reflexivity.
  - apply (no_collision_of_no_report (MR:=rangeForward) _ ["proto"]
             ["proto/foo"]); [reflexivity| |].
    + apply (walkRoots_is_Ok _ _ ∅). eexists. vm_compute. reflexivity.
    + intros k paths. vm_compute. discriminate.
  - intros k f (root & Hroot%list_elem_of_singleton & Hf & _) [Hk | Hk].
    + discriminate.
    + subst root. vm_compute in Hf.
      apply elem_of_cons in Hf as [-> | Hf];
        [|apply elem_of_cons in Hf as [-> | Hf%elem_of_nil]; [|done]];
        vm_compute in Hk; discriminate.
  - discriminate.
Defined.

(** ** Duplicates and missing files in the explicit list *)

Section explicit_list.
Context {E : Type}.
Context {SP : Storagepath E} {ST : Storage E} {CP : ConfigProvider E}.
Context {MR : MapRange}.

Implicit Types (bucket : ReadBucket E) (seen : gset string).

(** When the loop ends well, [bucket.Stat] has been called once on each
    input path, normalized, in the order of the list. *)
Lemma statLoop_stats bucket allow paths seen stats seen' :
  statLoop bucket allow paths seen = (stats, Ok seen') →
  Forall2 (λ p n, NormalizeAndValidate p = inr n) paths stats.
Proof.
  revert seen stats. induction paths as [|p paths IH]; intros seen stats.
  - simpl. intros [= <- _]. constructor.
  - simpl. destruct (NormalizeAndValidate p) as [e|n0] eqn:Hn; [done|].
    destruct (decide (n0 ∈ seen)) as [|Hfresh]; [done|].
    destruct (Stat bucket n0) as [e|].
    + destruct (IsNotExist e); simpl; [|done].
      destruct allow; simpl; [|done].
      destruct (statLoop bucket true paths seen) as [stats1 r] eqn:Hl.
      intros [= <- ->]. constructor; [done|by eapply IH].
    + destruct (statLoop bucket allow paths (seen ∪ {[n0]}))
        as [stats1 r] eqn:Hl.
      intros [= <- ->]. constructor; [done|by eapply IH].
Qed.

(** Two entries with the same normalized path that exists: the loop
    fails. *)
Lemma statLoop_duplicate_fails bucket allow l1 p1 l2 p2 l3 n seen :
  NormalizeAndValidate p1 = inr n → NormalizeAndValidate p2 = inr n →
  Stat bucket n = None →
  is_Err (statLoop bucket allow (l1 ++ p1 :: l2 ++ p2 :: l3)%list seen).2.
Proof.
  intros Hn1 Hn2 Hs. rewrite statLoop_app.
  destruct (statLoop bucket allow l1 seen).2 as [e|seen1]; [by eexists|].
  simpl. rewrite Hn1.
  destruct (decide (n ∈ seen1)) as [|Hfresh]; [by eexists|].
  rewrite Hs.
  pose proof (statLoop_recorded_fails bucket allow (l2 ++ p2 :: l3)%list
                (seen1 ∪ {[n]}) p2 n) as Hfail.
  destruct (statLoop bucket allow (l2 ++ p2 :: l3)%list (seen1 ∪ {[n]})).
  apply Hfail; [|done|].
  - apply elem_of_app. right. by left.
  - apply elem_of_union_r. by apply elem_of_singleton.
Qed.

(** With the tolerance flag, an entry that does not exist can be removed
    from the list without changing the outcome of the loop. *)
Lemma statLoop_drop_missing bucket l1 p l2 n e seen :
  allExist bucket seen →
  NormalizeAndValidate p = inr n →
  Stat bucket n = Some e → IsNotExist e = true →
  (statLoop bucket true (l1 ++ p :: l2)%list seen).2 =
    (statLoop bucket true (l1 ++ l2)%list seen).2.
Proof.
  intros Hseen Hn Hs He. rewrite !statLoop_app.
  destruct (statLoop bucket true l1 seen) as [stats1 [e1|seen1]] eqn:Hl1;
    simpl; [done|].
  rewrite Hn. destruct (decide (n ∈ seen1)) as [Hin|_].
  - apply (statLoop_allExist _ _ _ _ _ _ Hseen Hl1) in Hin. congruence.
  - rewrite Hs, He. simpl. by destruct (statLoop bucket true l2 seen1).
Qed.

Lemma resolveEntry_not_duplicate rootMap roots acc p n :
  resolveEntry (E:=E) rootMap roots acc p ≠ Err (ErrDuplicateNormalized n).
Proof.
  unfold resolveEntry.
  destruct (range_set (MapMatches rootMap p)) as [|root [|root' l]];
    [done| |done].
  unfold check. destruct (Rel root p) as [e|r]; simpl; [done|].
  destruct (NormalizeAndValidate r) as [e|k]; simpl; [done|].
  by destruct (acc !! k).
Qed.

Lemma resolve_not_duplicate rootMap roots l acc n :
  resolve (E:=E) rootMap roots l acc ≠ Err (ErrDuplicateNormalized n).
Proof.
  revert acc. induction l as [|p l IH]; intros acc; simpl; [done|].
  intros [H | (acc1 & _ & H)]%bind_Err.
  - by apply resolveEntry_not_duplicate in H.
  - by apply IH in H.
Qed.

(** The first entry of the list, when it normalizes to a path that is not
    recorded, is looked up in the bucket. *)
Lemma statLoop_first_lookup bucket allow p rest n seen :
  NormalizeAndValidate p = inr n → n ∉ seen →
  ∃ stats, (statLoop bucket allow (p :: rest) seen).1 = n :: stats.
Proof.
  intros Hn Hfresh. simpl. rewrite Hn, decide_False by done.
  destruct (Stat bucket n) as [e|].
  - destruct (IsNotExist e); simpl; [|by eexists].
    destruct allow; simpl; [|by eexists].
    destruct (statLoop bucket true rest seen). by eexists.
  - destruct (statLoop bucket allow rest (seen ∪ {[n]})). by eexists.
Qed.

(** The result of the explicit mode is decided by the configuration and
    the outcome of the first loop. *)
Lemma explicit_result bucket roots paths allow :
  (GetProtoFileSetForRealFilePaths bucket roots paths allow).2 =
    do config <- check (newConfig roots []);
    do S <- (statLoop bucket allow paths ∅).2;
    do m <- resolve (SliceToMap (Roots config)) (Roots config)
              (range_set S) ∅;
    if decide (size m = 0) then Err ErrNoInputFilesSpecified
    else newProtoFileSet (Roots config) m.
Proof.
  unfold GetProtoFileSetForRealFilePaths.
  destruct (newConfig roots []) as [e|config]; simpl; [done|].
  by destruct (statLoop bucket allow paths ∅).
Qed.

End explicit_list.

(** C5, as the code has it: when two entries of the explicit list
    normalize to the same path and that path exists in the bucket,
    [GetProtoFileSetForRealFilePaths] fails; when the entries before the
    second one are processed without error, it fails with the duplicate
    path error, raised before any [bucket.Stat] call for the second
    entry, after one [bucket.Stat] call for each entry before it.  With
    the explicit paths [proto/foo/a.proto] twice and that file in the
    bucket, it fails this way after one call of [bucket.Stat]. *)
Theorem explicit_duplicate_detected
  {E} {SP : Storagepath E} {ST : Storage E} {CP : ConfigProvider E}
  {MR : MapRange} (bucket : ReadBucket E) (roots : list string)
  (allow : bool) (config : Config) (l1 l2 l3 : list string)
  (p1 p2 n : string) :
  newConfig roots [] = inr config →
  NormalizeAndValidate p1 = inr n → NormalizeAndValidate p2 = inr n →
  Stat bucket n = None →
  is_Err (GetProtoFileSetForRealFilePaths bucket roots
            (l1 ++ p1 :: l2 ++ p2 :: l3)%list allow).2 ∧
  (∀ stats S,
     statLoop bucket allow (l1 ++ p1 :: l2)%list ∅ = (stats, Ok S) →
     GetProtoFileSetForRealFilePaths bucket roots
       (l1 ++ p1 :: l2 ++ p2 :: l3)%list allow =
       (stats, Err (ErrDuplicateNormalized n)) ∧
     Forall2 (λ p s, NormalizeAndValidate p = inr s)
       (l1 ++ p1 :: l2)%list stats) ∧
  (∀ (MR' : MapRange) (allow' : bool),
     GetProtoFileSetForRealFilePaths (MR:=MR')
       (bucketOf ["proto/foo/a.proto"]) ["proto"]
       ["proto/foo/a.proto"; "proto/foo/a.proto"] allow' =
     (["proto/foo/a.proto"], Err (ErrDuplicateNormalized "proto/foo/a.proto"))).
Proof.
  intros Hc Hn1 Hn2 Hs. split; [|split].
  - rewrite explicit_result, Hc. simpl.
    destruct (statLoop_duplicate_fails bucket allow l1 p1 l2 p2 l3 n ∅)
      as [e He]; [done..|].
    rewrite He. by eexists.
  - intros stats S Hl. split; [|by eapply statLoop_stats].
    apply (explicit_stat_failure _ _ _ _ config); [done|].
    assert (n ∈ S) as Hin.
    { apply (statLoop_Ok_inv _ _ _ _ _ _ Hl). right. exists p1.
      split; [|done]. apply elem_of_app. right. by left. }
    replace (l1 ++ p1 :: l2 ++ p2 :: l3)%list
      with ((l1 ++ p1 :: l2) ++ p2 :: l3)%list
      by (by rewrite <- app_assoc).
    rewrite statLoop_app, Hl. simpl. rewrite Hn2.
    rewrite decide_True by done. simpl. by rewrite app_nil_r.
  - intros MR' allow'.
    apply (explicit_stat_failure _ _ _ _
             {| Roots := ["proto"]; Excludes := [] |}); [reflexivity|].
    destruct allow'; vm_compute; reflexivity.
Qed.

(** The scenario of C5 with the file in the bucket. *)
Lemma explicit_duplicate_detected_witness :
  Stat (bucketOf ["proto/foo/a.proto"]) "proto/foo/a.proto" = None ∧
  is_Err (GetProtoFileSetForRealFilePaths (MR:=rangeForward)
            (bucketOf ["proto/foo/a.proto"]) ["proto"]
            ["proto/foo/a.proto"; "proto/foo/a.proto"] false).2.
Proof.
  split; [reflexivity|].
  refine (proj1
    (explicit_duplicate_detected (MR:=rangeForward)
       (bucketOf ["proto/foo/a.proto"]) ["proto"] false
       {| Roots := ["proto"]; Excludes := [] |} [] [] []
       "proto/foo/a.proto" "proto/foo/a.proto" "proto/foo/a.proto"
       _ _ _ _)); reflexivity.
Defined.

(** C5 as stated fails: the duplicate of a path that exists is reported
    after a call of [bucket.Stat] on the first occurrence; whatever the
    bucket, the first entry of the scenario is looked up; and the
    duplicate of a path that does not exist is not reported at all. *)
Lemma explicit_duplicate_counterexample :
  GetProtoFileSetForRealFilePaths (MR:=rangeForward)
    (bucketOf ["proto/foo/a.proto"]) ["proto"]
    ["proto/foo/a.proto"; "proto/foo/a.proto"] false =
    (["proto/foo/a.proto"], Err (ErrDuplicateNormalized "proto/foo/a.proto")) ∧
  (∀ (bucket : ReadBucket CollabError) (allow : bool),
     (GetProtoFileSetForRealFilePaths (MR:=rangeForward) bucket ["proto"]
        ["proto/foo/a.proto"; "proto/foo/a.proto"] allow).1 ≠ []) ∧
  GetProtoFileSetForRealFilePaths (MR:=rangeForward)
    (bucketOf ["proto/foo/b.proto"]) ["proto"]
    ["proto/foo/a.proto"; "proto/foo/a.proto"; "proto/foo/b.proto"] true =
    (["proto/foo/a.proto"; "proto/foo/a.proto"; "proto/foo/b.proto"],
     Ok {| ProtoFileSetRoots := ["proto"];
           RootFilePathToRealFilePath :=
             {[ "foo/b.proto" := "proto/foo/b.proto" ]} |}).
Proof.
  split; [vm_compute; reflexivity|]. split; [|vm_compute; reflexivity].
  intros bucket allow.
  destruct (statLoop_first_lookup bucket allow "proto/foo/a.proto"
              ["proto/foo/a.proto"] "proto/foo/a.proto" ∅)
    as [stats Hstats]; [reflexivity|apply not_elem_of_empty|].
  unfold GetProtoFileSetForRealFilePaths.
  change (newConfig ["proto"] [])
    with (inr {| Roots := ["proto"]; Excludes := [] |}
            : CollabError + Config).
  cbv iota beta.
  destruct (statLoop bucket allow _ ∅) as [stats' r].
  simpl in *. by rewrite Hstats.
Qed.

(** C6: for the explicit paths [a] and [b], where [a] exists and is
    within exactly one root and [b] does not exist,
    [GetProtoFileSetForRealFilePaths] with the tolerance flag returns the
    set of the single logical entry of [a], and without the flag it fails
    with the error of [bucket.Stat]; and whenever [bucket.Stat] fails on a
    path of the list with an error other than "does not exist", the
    function fails, whatever the flag. *)
Theorem explicit_missing_file_tolerance
  {E} {SP : Storagepath E} {ST : Storage E} {CP : ConfigProvider E}
  {MR : MapRange} (bucket : ReadBucket E) (roots : list string)
  (config : Config) (a b na nb k : string) (e : E) :
  newConfig roots [] = inr config →
  NormalizeAndValidate a = inr na → NormalizeAndValidate b = inr nb →
  Stat bucket na = None →
  Stat bucket nb = Some e → IsNotExist e = true →
  resolvesTo (Roots config) na k →
  GetProtoFileSetForRealFilePaths bucket roots [a; b] true =
    ([na; nb],
     Ok {| ProtoFileSetRoots := Roots config;
           RootFilePathToRealFilePath := {[ k := na ]} |}) ∧
  GetProtoFileSetForRealFilePaths bucket roots [a; b] false =
    ([na; nb], Err (ErrCollaborator e)) ∧
  (∀ paths allow p n e',
     p ∈ paths → NormalizeAndValidate p = inr n →
     Stat bucket n = Some e' → IsNotExist e' = false →
     is_Err (GetProtoFileSetForRealFilePaths bucket roots paths allow).2).
Proof.
  intros Hc Ha Hb Hsa Hsb He Hk.
  assert (nb ∉ (∅ ∪ {[na]} : gset string)) as Hnb.
  { intros [H%not_elem_of_empty | ->%elem_of_singleton]%elem_of_union;
      [done|congruence]. }
  split; [|split].
  - assert (statLoop bucket true [a; b] ∅ = ([na; nb], Ok {[na]})) as Hl.
    { simpl. rewrite Ha, decide_False by apply not_elem_of_empty.
      rewrite Hsa, Hb, decide_False by done.
      rewrite Hsb, He. simpl. by rewrite (left_id_L ∅ (∪)). }
    destruct (explicit_resolved bucket roots [a; b] true config _ _ Hc Hl)
      as (m & -> & _ & Hm).
    + intros p ->%elem_of_singleton. by exists k.
    + by intros p1 p2 k' ->%elem_of_singleton ->%elem_of_singleton.
    + apply non_empty_singleton_L.
    + do 3 f_equal. apply map_eq. intros k'. apply option_eq. intros f.
      rewrite Hm, lookup_singleton_Some, elem_of_singleton. split.
      * intros [-> Hk']. split; [|done].
        by eapply resolvesTo_functional.
      * by intros [<- <-].
  - apply (explicit_stat_failure _ _ _ _ config); [done|].
    simpl. rewrite Ha, decide_False by apply not_elem_of_empty.
    rewrite Hsa, Hb, decide_False by done.
    by rewrite Hsb, He.
  - intros paths allow p n e' Hp Hn Hs He'.
    rewrite explicit_result, Hc. simpl.
    destruct (statLoop_stat_error_fails bucket allow paths ∅ p n e')
      as [e0 He0]; [done..|].
    rewrite He0. by eexists.
Qed.

(** Root [proto], the file [proto/a.proto] in the bucket and
    [proto/b.proto] missing. *)
Lemma explicit_missing_file_tolerance_witness :
  GetProtoFileSetForRealFilePaths (MR:=rangeForward)
    (bucketOf ["proto/a.proto"]) ["proto"]
    ["proto/a.proto"; "proto/b.proto"] true =
    (["proto/a.proto"; "proto/b.proto"],
     Ok {| ProtoFileSetRoots := ["proto"];
           RootFilePathToRealFilePath :=
             {[ "a.proto" := "proto/a.proto" ]} |}) ∧
  GetProtoFileSetForRealFilePaths (MR:=rangeForward)
    (bucketOf ["proto/a.proto"]) ["proto"]
    ["proto/a.proto"; "proto/b.proto"] false =
    (["proto/a.proto"; "proto/b.proto"],
     Err (ErrCollaborator (NotExist "proto/b.proto"))).
Proof.
  refine (let H := explicit_missing_file_tolerance (MR:=rangeForward)
            (bucketOf ["proto/a.proto"]) ["proto"]
            {| Roots := ["proto"]; Excludes := [] |}
            "proto/a.proto" "proto/b.proto" "proto/a.proto" "proto/b.proto"
            "a.proto" (NotExist "proto/b.proto") _ _ _ _ _ _ _
          in conj (proj1 H) (proj1 (proj2 H))); try reflexivity.
  exists "proto". split; vm_compute; reflexivity.
Defined.

(** A bucket whose [Stat] fails on [proto/a.proto] with an I/O error makes
    the explicit mode fail with and without the tolerance flag. *)
Example explicit_stat_io_error :
  (GetProtoFileSetForRealFilePaths (MR:=rangeForward)
     (brokenBucketOf ["proto/a.proto"] "proto/a.proto") ["proto"]
     ["proto/a.proto"] true).2 =
    Err (ErrCollaborator (IOError "stat failed")) ∧
  (GetProtoFileSetForRealFilePaths (MR:=rangeForward)
     (brokenBucketOf ["proto/a.proto"] "proto/a.proto") ["proto"]
     ["proto/a.proto"] false).2 =
    Err (ErrCollaborator (IOError "stat failed")).
Proof. split; vm_compute; reflexivity. Qed.

(** C7, as the code has it: in explicit mode, when the surviving paths are
    each within exactly one root and two of them have the same logical
    path, [GetProtoFileSetForRealFilePaths] fails with the "within another
    root" error, which names the real path at hand, its logical path and
    the real path that claimed the logical path before: two distinct
    surviving paths with that logical path, the second of them visited
    earlier by the iteration over the surviving paths. *)
Theorem explicit_collision_reported
  {E} {SP : Storagepath E} {ST : Storage E} {CP : ConfigProvider E}
  {MR : MapRange} (bucket : ReadBucket E) (roots paths : list string)
  (allow : bool) (config : Config) (stats : list string) (S : gset string)
  (p1 p2 k : string) :
  newConfig roots [] = inr config →
  statLoop bucket allow paths ∅ = (stats, Ok S) →
  (∀ p, p ∈ S → ∃ k, resolvesTo (Roots config) p k) →
  p1 ∈ S → p2 ∈ S → p1 ≠ p2 →
  resolvesTo (Roots config) p1 k → resolvesTo (Roots config) p2 k →
  ∃ p k' other,
    GetProtoFileSetForRealFilePaths bucket roots paths allow =
      (stats, Err (ErrWithinAnotherRoot p k' other)) ∧
    p ∈ S ∧ other ∈ S ∧ other ≠ p ∧
    resolvesTo (Roots config) p k' ∧ resolvesTo (Roots config) other k' ∧
    ∃ l1 l2, range_set S = (l1 ++ p :: l2)%list ∧ other ∈ l1.
Proof.
  intros Hc Hl Hall H1 H2 Hne Hk1 Hk2.
  rewrite (explicit_survivors _ _ _ _ _ _ _ Hc Hl).
  destruct (resolve_resolved (E:=E) (Roots config) (range_set S) ∅)
    as [(m & _ & _ & _ & Hinj) | (p & k' & other & He & Hp & Hk & Ho)].
  - apply range_set_NoDup.
  - intros p Hp%range_set_elem. by apply Hall.
  - destruct Hne. apply (Hinj p1 p2 k); by rewrite ?range_set_elem.
  - exists p, k', other. rewrite He. simpl. split; [done|].
    destruct Ho as [Ho | (Ho & Hne' & Hko & Hpos)];
      [by rewrite lookup_empty in Ho|].
    by rewrite !range_set_elem in *.
Qed.

(** Roots [a] and [b] with the explicit paths [a/x.proto] and
    [b/x.proto]. *)
Lemma explicit_collision_reported_witness :
  ∃ p k' other,
    GetProtoFileSetForRealFilePaths (MR:=rangeForward)
      (bucketOf ["a/x.proto"; "b/x.proto"]) ["a"; "b"]
      ["a/x.proto"; "b/x.proto"] false =
      (["a/x.proto"; "b/x.proto"], Err (ErrWithinAnotherRoot p k' other)) ∧
    p ∈ ({[ "a/x.proto"; "b/x.proto" ]} : gset string) ∧
    other ∈ ({[ "a/x.proto"; "b/x.proto" ]} : gset string) ∧
    other ≠ p ∧
    resolvesTo ["a"; "b"] p k' ∧ resolvesTo ["a"; "b"] other k' ∧
    ∃ l1 l2,
      range_set (MapRange:=rangeForward) {[ "a/x.proto"; "b/x.proto" ]} =
        (l1 ++ p :: l2)%list ∧ other ∈ l1.
Proof.
  refine (explicit_collision_reported (MR:=rangeForward)
            (bucketOf ["a/x.proto"; "b/x.proto"]) ["a"; "b"]
            ["a/x.proto"; "b/x.proto"] false
            {| Roots := ["a"; "b"]; Excludes := [] |}
            ["a/x.proto"; "b/x.proto"] {[ "a/x.proto"; "b/x.proto" ]}
            "a/x.proto" "b/x.proto" "x.proto" _ _ _ _ _ _ _ _).
  - reflexivity.
  - vm_compute. reflexivity.
  - intros p [->%elem_of_singleton | ->%elem_of_singleton]%elem_of_union;
      exists "x.proto"; [exists "a" | exists "b"];
      split; vm_compute; reflexivity.
  - apply elem_of_union_l. by apply elem_of_singleton.
  - apply elem_of_union_r. by apply elem_of_singleton.
  - discriminate.
  - exists "a". split; vm_compute; reflexivity.
  - exists "b". split; vm_compute; reflexivity.
Defined.

(** C7 as stated fails: on the same colliding files the root scan reports
    the "within multiple roots" error with the sorted list of the real
    paths, and the explicit mode reports the "within another root" error,
    which lists the two real paths in the order of the iteration: in one
    order [b/x.proto] before [a/x.proto], which is not sorted. *)
Lemma explicit_collision_counterexample :
  GetProtoFileSetForBucket (MR:=rangeForward)
    (bucketOf ["a/x.proto"; "b/x.proto"]) ["a"; "b"] [] =
    Err (ErrWithinMultipleRoots "x.proto" ["a/x.proto"; "b/x.proto"]) ∧
  GetProtoFileSetForRealFilePaths (MR:=rangeForward)
    (bucketOf ["a/x.proto"; "b/x.proto"]) ["a"; "b"]
    ["a/x.proto"; "b/x.proto"] false =
    (["a/x.proto"; "b/x.proto"],
     Err (ErrWithinAnotherRoot "b/x.proto" "x.proto" "a/x.proto")) ∧
  GetProtoFileSetForRealFilePaths (MR:=rangeBackward)
    (bucketOf ["a/x.proto"; "b/x.proto"]) ["a"; "b"]
    ["a/x.proto"; "b/x.proto"] false =
    (["a/x.proto"; "b/x.proto"],
     Err (ErrWithinAnotherRoot "a/x.proto" "x.proto" "b/x.proto")) ∧
  ¬ Sorted String.le ["b/x.proto"; "a/x.proto"].
Proof.
  split; [vm_compute; reflexivity|].
  split; [vm_compute; reflexivity|].
  split; [vm_compute; reflexivity|].
  intros Hs. apply Sorted_inv in Hs as [_ Hhd].
  apply HdRel_inv in Hhd. vm_compute in Hhd. done.
Qed.

(** C10: with the tolerance flag, two entries of the explicit list that
    normalize to the same path, which does not exist in the bucket, are
    both dropped: the result is the result for the list without them; and
    a path that does not exist is never reported as a duplicate. *)
Theorem explicit_missing_duplicate_dropped
  {E} {SP : Storagepath E} {ST : Storage E} {CP : ConfigProvider E}
  {MR : MapRange} (bucket : ReadBucket E) (roots : list string)
  (l1 l2 l3 : list string) (p1 p2 n : string) (e : E) :
  NormalizeAndValidate p1 = inr n → NormalizeAndValidate p2 = inr n →
  Stat bucket n = Some e → IsNotExist e = true →
  (GetProtoFileSetForRealFilePaths bucket roots
     (l1 ++ p1 :: l2 ++ p2 :: l3)%list true).2 =
    (GetProtoFileSetForRealFilePaths bucket roots
       (l1 ++ l2 ++ l3)%list true).2 ∧
  (∀ paths allow,
     (GetProtoFileSetForRealFilePaths bucket roots paths allow).2 ≠
       Err (ErrDuplicateNormalized n)).
Proof.
  intros Hn1 Hn2 Hs He.
  assert (allExist bucket ∅) as Hempty.
  { intros x Hx. by apply not_elem_of_empty in Hx. }
  split.
  - rewrite !explicit_result. f_equal.
    rewrite (statLoop_drop_missing bucket l1 p1 _ n e) by done.
    rewrite !app_assoc.
    by rewrite (statLoop_drop_missing bucket (l1 ++ l2)%list p2 _ n e).
  - intros paths allow. rewrite explicit_result.
    intros [Hc | (config & _ & [Hl | (S & _ & [Hr | (m & _ & Hm)]%bind_Err)]%bind_Err)]%bind_Err.
    + unfold check in Hc. by destruct (newConfig roots []).
    + by apply (statLoop_no_duplicate_of_missing _ _ _ _ n e) in Hl.
    + by apply resolve_not_duplicate in Hr.
    + by destruct (decide (size m = 0)).
Qed.

(** Root [proto], the missing path [proto/z.proto] named twice and the
    file [proto/a.proto]. *)
Lemma explicit_missing_duplicate_dropped_witness :
  (GetProtoFileSetForRealFilePaths (MR:=rangeForward)
     (bucketOf ["proto/a.proto"]) ["proto"]
     ["proto/z.proto"; "proto/a.proto"; "proto/z.proto"] true).2 =
    (GetProtoFileSetForRealFilePaths (MR:=rangeForward)
       (bucketOf ["proto/a.proto"]) ["proto"] ["proto/a.proto"] true).2 ∧
  (GetProtoFileSetForRealFilePaths (MR:=rangeForward)
     (bucketOf ["proto/a.proto"]) ["proto"] ["proto/a.proto"] true).2 =
    Ok {| ProtoFileSetRoots := ["proto"];
          RootFilePathToRealFilePath :=
            {[ "a.proto" := "proto/a.proto" ]} |}.
Proof.
  split; [|vm_compute; reflexivity].
  refine (proj1
    (explicit_missing_duplicate_dropped (MR:=rangeForward)
       (bucketOf ["proto/a.proto"]) ["proto"] [] ["proto/a.proto"] []
       "proto/z.proto" "proto/z.proto" "proto/z.proto"
       (NotExist "proto/z.proto") _ _ _ _)); reflexivity.
Defined.

(** ** The invariant of the proto file set *)

(** C8: a set returned by [GetProtoFileSetForBucket] or by
    [GetProtoFileSetForRealFilePaths] has a non-empty map, and each of its
    logical paths stands for exactly one real path: the root scan finds no
    other schema file with that logical path (excluded or not), and no
    other surviving explicit path has it.  When the resolved map would be
    empty or two real paths share a logical path, both entry points
    return an error. *)
Theorem proto_file_set_invariant
  {E} {SP : Storagepath E} {ST : Storage E} {CP : ConfigProvider E}
  {MR : MapRange} (bucket : ReadBucket E) (roots : list string) :
  (∀ excludes pfs,
     GetProtoFileSetForBucket bucket roots excludes = Ok pfs →
     RootFilePathToRealFilePath pfs ≠ ∅ ∧
     ∃ config,
       newConfig roots excludes = inr config ∧
       ∀ k f, RootFilePathToRealFilePath pfs !! k = Some f →
         produces bucket (Roots config) k f ∧
         ∀ f', produces bucket (Roots config) k f' → f' = f) ∧
  (∀ paths allow pfs,
     (GetProtoFileSetForRealFilePaths bucket roots paths allow).2 = Ok pfs →
     RootFilePathToRealFilePath pfs ≠ ∅ ∧
     ∃ config stats S,
       newConfig roots [] = inr config ∧
       statLoop bucket allow paths ∅ = (stats, Ok S) ∧
       ∀ k f, RootFilePathToRealFilePath pfs !! k = Some f →
         f ∈ S ∧ resolvesTo (Roots config) f k ∧
         ∀ f', f' ∈ S → resolvesTo (Roots config) f' k → f' = f) ∧
  (∀ excludes config,
     newConfig roots excludes = inr config →
     collision bucket (Roots config) ∨
     (∀ k f, produces bucket (Roots config) k f → ¬ kept config f) →
     is_Err (GetProtoFileSetForBucket bucket roots excludes)) ∧
  (∀ paths allow config stats S,
     newConfig roots [] = inr config →
     statLoop bucket allow paths ∅ = (stats, Ok S) →
     S = ∅ ∨
     (∃ p1 p2 k, p1 ∈ S ∧ p2 ∈ S ∧ p1 ≠ p2 ∧
                 resolvesTo (Roots config) p1 k ∧
                 resolvesTo (Roots config) p2 k) →
     is_Err (GetProtoFileSetForRealFilePaths bucket roots paths allow).2).
Proof.
  split; [|split; [|split]].
  - intros excludes pfs
      (config & Hc & _ & Hcoll & _ & Hne & Hm)%bucket_Ok_inv.
    split; [done|]. exists config. split; [done|].
    intros k f [Hp _]%Hm. split; [done|]. intros f' Hp'.
    destruct (decide (f' = f)) as [|Hdiff]; [done|].
    destruct Hcoll. by exists k, f', f.
  - intros paths allow pfs
      (config & stats & S & Hc & Hl & _ & Hne & Hm & _ & Hinj)%explicit_Ok_inv.
    split; [done|]. exists config, stats, S. split; [done|]. split; [done|].
    intros k f [Hf Hk]%Hm. split; [done|]. split; [done|].
    intros f' Hf' Hk'. by apply (Hinj f' f k).
  - intros excludes config Hc Hbad.
    destruct (walksOk_cases bucket (Roots config)) as [Hw|Hw].
    2:{ destruct (bucket_walk_failure bucket _ _ _ Hc Hw) as [e ->].
        by eexists. }
    destruct (collision_cases bucket (Roots config) Hw) as [Hcoll|Hcoll].
    { destruct (bucket_collision bucket _ _ _ Hc Hw Hcoll)
        as (k & paths & -> & _). by eexists. }
    destruct Hbad as [Hbad|Hnone]; [done|].
    destruct (bucket_no_collision bucket _ _ _ Hc Hw Hcoll) as (m & Hm & ->).
    rewrite decide_True; [by eexists|].
    apply map_empty. intros k. apply eq_None_not_Some. intros [f Hf].
    apply Hm in Hf as [Hp Hk]. by apply (Hnone k f).
  - intros paths allow config stats S Hc Hl [-> | (p1 & p2 & k & H)].
    + rewrite (explicit_empty _ _ _ _ _ _ Hc Hl). by eexists.
    + destruct H as (H1 & H2 & Hne & Hk1 & Hk2).
      exact (explicit_collision_fails bucket roots paths allow config stats S
               p1 p2 k Hc Hl H1 H2 Hne Hk1 Hk2).
Qed.

(** An empty bucket: the root scan of [proto] returns an error, not an
    empty set. *)
Lemma proto_file_set_invariant_witness :
  newConfig ["proto"] [] = inr {| Roots := ["proto"]; Excludes := [] |} ∧
  is_Err (GetProtoFileSetForBucket (MR:=rangeForward) (bucketOf [])
            ["proto"] []).
Proof.
  split; [reflexivity|].
  refine (proj1 (proj2 (proj2
    (proto_file_set_invariant (MR:=rangeForward) (bucketOf []) ["proto"])))
    [] {| Roots := ["proto"]; Excludes := [] |} _ _).
  - reflexivity.
  - right. intros k f (root & Hroot%list_elem_of_singleton & Hf & _).
    subst root. vm_compute in Hf. by apply elem_of_nil in Hf.
Defined.

(** C9: in [GetProtoFileSetForBucket] a logical path enters the
    accumulation map together with a real path, so every set of real
    paths of the map is inhabited after the enumerations, the collapse of
    no entry takes the "no real file path" branch, and the function never
    returns that error. *)
Theorem no_real_file_path_unreachable
  {E} {SP : Storagepath E} {ST : Storage E} {CP : ConfigProvider E}
  {MR : MapRange} (bucket : ReadBucket E) (roots excludes : list string) :
  (∀ root acc realFilePath acc',
     visit root acc realFilePath = Ok acc' →
     ∀ k S, acc' !! k = Some S → acc !! k = Some S ∨ realFilePath ∈ S) ∧
  (∀ config M,
     newConfig roots excludes = inr config →
     walkRoots bucket (Roots config) ∅ = Ok M →
     ∀ k S, M !! k = Some S →
       S ≠ ∅ ∧ range_set S ≠ [] ∧
       ∀ acc, collapseEntry (E:=E) acc k S ≠ Err (ErrNoRealFilePath k)) ∧
  (∀ k, GetProtoFileSetForBucket bucket roots excludes ≠
          Err (ErrNoRealFilePath k)).
Proof.
  split; [|split].
  - intros root acc f acc' [[_ ->] | (_ & k0 & _ & ->)]%visit_Ok_inv k S;
      [by left|].
    rewrite lookup_insert. destruct (decide (k0 = k)); [|by left].
    intros [= <-]. right. apply elem_of_union_r. by apply elem_of_singleton.
  - intros config M Hc [Hinh _]%walkRoots_from_empty k S HS.
    assert (S ≠ ∅) as Hne by by apply (Hinh k).
    assert (range_set S ≠ []) as Hr by by rewrite range_set_nil.
    split; [done|]. split; [done|]. intros acc.
    destruct (collapseEntry_cases (E:=E) acc k S)
      as [[Hempty _] | [(f & _ & ->) | [_ ->]]]; done.
  - intros k. unfold GetProtoFileSetForBucket.
    destruct (newConfig roots excludes) as [e|config]; simpl; [done|].
    destruct (walkRoots bucket (Roots config) ∅) as [e|M] eqn:HW; simpl.
    { apply walkRoots_Err in HW as [e' ->]. done. }
    apply walkRoots_from_empty in HW as [Hinh _].
    destruct (collapse (range_map M) ∅) as [e|m] eqn:HC; simpl.
    { apply collapse_map_Err in HC as (k' & S & _ & _ & ->); done. }
    unfold newProtoFileSet.
    destruct (decide (length (Excludes config) = 0));
      by destruct (decide (size _ = 0)).
Qed.

(** The accumulation map of the scenario of C1. *)
Lemma no_real_file_path_unreachable_witness :
  walkRoots (bucketOf ["proto/foo/a.proto"; "proto/foo/b.proto"]) ["proto"] ∅ =
    Ok {[ "foo/a.proto" := {[ "proto/foo/a.proto" ]};
          "foo/b.proto" := {[ "proto/foo/b.proto" ]} ]} ∧
  ({[ "proto/foo/a.proto" ]} : gset string) ≠ ∅.
Proof.
  split; [vm_compute; reflexivity|].
  refine (proj1 (proj1 (proj2
    (no_real_file_path_unreachable (MR:=rangeForward)
       (bucketOf ["proto/foo/a.proto"; "proto/foo/b.proto"]) ["proto"] []))
    {| Roots := ["proto"]; Excludes := [] |}
    {[ "foo/a.proto" := {[ "proto/foo/a.proto" ]};
       "foo/b.proto" := {[ "proto/foo/b.proto" ]} ]}
    _ _ "foo/a.proto" {[ "proto/foo/a.proto" ]} _)).
  - reflexivity.
  - vm_compute. reflexivity.
  - vm_compute. reflexivity.
Defined.

(** ** Further properties of the root scan *)

Section scan.
Context {E : Type}.
Context {SP : Storagepath E} {ST : Storage E} {CP : ConfigProvider E}.
Context {MR : MapRange}.

Implicit Types (bucket : ReadBucket E) (acc : gmap string (gset string)).

(** The visitor looks at the schema files only. *)
Lemma walkVisit_schema_files root paths acc :
  walkVisit root paths acc =
    walkVisit root (filter (λ f, Ext f = ".proto") paths) acc.
Proof.
  revert acc. induction paths as [|f paths IH]; intros acc; [done|].
  destruct (decide (Ext f = ".proto")) as [Hext|Hext].
  - rewrite filter_cons_True by done. simpl.
    destruct (visit root acc f); simpl; [done|apply IH].
  - rewrite filter_cons_False by done. simpl.
    rewrite visit_skip by done. simpl. apply IH.
Qed.

Lemma walkVisit_app root l1 l2 acc :
  walkVisit root (l1 ++ l2)%list acc =
    do acc1 <- walkVisit root l1 acc; walkVisit root l2 acc1.
Proof.
  revert acc. induction l1 as [|f l1 IH]; intros acc; simpl; [done|].
  destruct (visit root acc f); simpl; [done|apply IH].
Qed.

Lemma walkRoots_app bucket r1 r2 acc :
  walkRoots bucket (r1 ++ r2)%list acc =
    do acc1 <- walkRoots bucket r1 acc; walkRoots bucket r2 acc1.
Proof.
  revert acc. induction r1 as [|root r1 IH]; intros acc; simpl; [done|].
  destruct (walkRoot bucket root acc); simpl; [done|apply IH].
Qed.

Lemma walkRoots_ext bucket1 bucket2 roots acc :
  (∀ root acc', root ∈ roots →
     walkRoot bucket1 root acc' = walkRoot bucket2 root acc') →
  walkRoots bucket1 roots acc = walkRoots bucket2 roots acc.
Proof.
  revert acc. induction roots as [|root roots IH]; intros acc H; [done|].
  simpl. rewrite (H root) by by left.
  destruct (walkRoot bucket2 root acc); simpl; [done|].
  apply IH. intros r acc' Hr. apply H. by right.
Qed.

(** An accumulation map is determined by its sets of real paths. *)
Lemma allInhabited_eq (M1 M2 : gmap string (gset string)) :
  allInhabited M1 → allInhabited M2 →
  (∀ k, realPathsOf M1 k = realPathsOf M2 k) → M1 = M2.
Proof.
  intros H1 H2 Heq. apply map_eq. intros k. specialize (Heq k).
  unfold realPathsOf in Heq.
  destruct (M1 !! k) as [S1|] eqn:E1, (M2 !! k) as [S2|] eqn:E2;
    simpl in Heq; [by subst| | |done].
  - by destruct (H1 k S1).
  - by destruct (H2 k S2).
Qed.

(** The rest of the function after the enumeration of the roots. *)
Lemma bucket_after_walk bucket roots excludes config M :
  newConfig roots excludes = inr config →
  walkRoots bucket (Roots config) ∅ = Ok M →
  GetProtoFileSetForBucket bucket roots excludes =
    do m <- collapse (range_map M) ∅;
    if decide (length (Excludes config) = 0) then
      if decide (size m = 0) then Err ErrNoInputFilesRoots
      else newProtoFileSet (Roots config) m
    else
      if decide (size (excludeFilter (SliceToMap (Excludes config))
                         (range_map m) ∅) = 0)
      then Err ErrNoInputFilesRootsExcludes
      else newProtoFileSet (Roots config)
             (excludeFilter (SliceToMap (Excludes config)) (range_map m) ∅).
Proof.
  intros Hc HW. unfold GetProtoFileSetForBucket. rewrite Hc. simpl.
  by rewrite HW.
Qed.

Lemma bucket_walk_error bucket roots excludes config e :
  newConfig roots excludes = inr config →
  walkRoots bucket (Roots config) ∅ = Err e →
  GetProtoFileSetForBucket bucket roots excludes = Err e.
Proof.
  intros Hc HW. unfold GetProtoFileSetForBucket. rewrite Hc. simpl.
  by rewrite HW.
Qed.

(** A reported collision is a collision. *)
Lemma bucket_multiple_roots_inv bucket roots excludes k paths :
  GetProtoFileSetForBucket bucket roots excludes =
    Err (ErrWithinMultipleRoots k paths) →
  ∃ config, newConfig roots excludes = inr config ∧
            walksOk bucket (Roots config) ∧ collision bucket (Roots config).
Proof.
  intros HR.
  destruct (newConfig roots excludes) as [e|config] eqn:Hc.
  { by rewrite (bucket_config_failure _ _ _ _ Hc) in HR. }
  exists config. split; [done|].
  destruct (walksOk_cases bucket (Roots config)) as [Hw|Hw].
  2:{ destruct (bucket_walk_failure bucket _ _ _ Hc Hw) as [e He].
      by rewrite He in HR. }
  split; [done|].
  destruct (collision_cases bucket (Roots config) Hw) as [Hcoll|Hcoll];
    [done|].
  destruct (bucket_no_collision bucket _ _ _ Hc Hw Hcoll) as (m & _ & He).
  rewrite He in HR. unfold emptyResultError in HR.
  destruct (decide (m = ∅)); [|done].
  by destruct (decide (length (Excludes config) = 0)).
Qed.

End scan.

(** X1: the order in which Go ranges over the maps shows in the result of
    [GetProtoFileSetForBucket] only through the choice of the collision it
    reports: a collision reported under one order is reported (maybe for
    another logical path) under every order, and any other outcome is the
    same under every order. *)
Theorem bucket_outcome_any_order
  {E} {SP : Storagepath E} {ST : Storage E} {CP : ConfigProvider E}
  (MR1 MR2 : MapRange) (bucket : ReadBucket E) (roots excludes : list string) :
  ((∃ k paths, GetProtoFileSetForBucket (MR:=MR1) bucket roots excludes =
                 Err (ErrWithinMultipleRoots k paths)) →
   ∃ k' paths', GetProtoFileSetForBucket (MR:=MR2) bucket roots excludes =
                  Err (ErrWithinMultipleRoots k' paths')) ∧
  ((∀ k paths, GetProtoFileSetForBucket (MR:=MR1) bucket roots excludes ≠
                 Err (ErrWithinMultipleRoots k paths)) →
   GetProtoFileSetForBucket (MR:=MR2) bucket roots excludes =
     GetProtoFileSetForBucket (MR:=MR1) bucket roots excludes).
Proof.
  split.
  - intros (k & paths & (config & Hc & Hw & Hcoll)%bucket_multiple_roots_inv).
    destruct (bucket_collision (MR:=MR2) bucket _ _ _ Hc Hw Hcoll)
      as (k' & paths' & He & _).
    by exists k', paths'.
  - apply bucket_any_order.
Qed.

(** Two colliding files under the roots [a] and [b]: the forward and the
    backward iteration both report the collision. *)
Lemma bucket_outcome_any_order_witness :
  GetProtoFileSetForBucket (MR:=rangeForward)
    (bucketOf ["a/x.proto"; "b/x.proto"]) ["a"; "b"] [] =
    Err (ErrWithinMultipleRoots "x.proto" ["a/x.proto"; "b/x.proto"]) ∧
  ∃ k' paths',
    GetProtoFileSetForBucket (MR:=rangeBackward)
      (bucketOf ["a/x.proto"; "b/x.proto"]) ["a"; "b"] [] =
      Err (ErrWithinMultipleRoots k' paths').
Proof.
  split; [vm_compute; reflexivity|].
  refine (proj1 (bucket_outcome_any_order rangeForward rangeBackward
                   (bucketOf ["a/x.proto"; "b/x.proto"]) ["a"; "b"] []) _).
  eexists _, _. vm_compute. reflexivity.
Defined.



(** X3: [GetProtoFileSetForBucket] returns a set exactly when the
    configuration is valid, the enumerations succeed, no two schema files
    share a logical path and some schema file passes the excludes; the set
    then has the roots of the configuration and maps each logical path to
    the schema file that has it, for the files whose directory matches no
    exclude. *)
Theorem bucket_success_exact
  {E} {SP : Storagepath E} {ST : Storage E} {CP : ConfigProvider E}
  {MR : MapRange} (bucket : ReadBucket E) (roots excludes : list string)
  (pfs : ProtoFileSet) :
  GetProtoFileSetForBucket bucket roots excludes = Ok pfs ↔
  ∃ config,
    newConfig roots excludes = inr config ∧
    walksOk bucket (Roots config) ∧
    ¬ collision bucket (Roots config) ∧
    ProtoFileSetRoots pfs = Roots config ∧
    (∃ k f, produces bucket (Roots config) k f ∧ kept config f) ∧
    ∀ k f, RootFilePathToRealFilePath pfs !! k = Some f ↔
             produces bucket (Roots config) k f ∧ kept config f.
Proof.
  split.
  - intros (config & Hc & Hw & Hcoll & Hr & Hne & Hm)%bucket_Ok_inv.
    exists config. do 4 (split; [done|]). split; [|done].
    apply map_choose in Hne as (k & f & Hkf). exists k, f. by apply Hm.
  - intros (config & Hc & Hw & Hcoll & Hr & (k & f & Hkf) & Hm).
    destruct (bucket_no_collision bucket _ _ _ Hc Hw Hcoll) as (m & Hm' & ->).
    assert (m = RootFilePathToRealFilePath pfs) as ->.
    { apply map_eq. intros k'. apply option_eq. intros f'.
      by rewrite Hm, Hm'. }
    rewrite decide_False.
    + destruct pfs as [r m]. simpl in *. by rewrite Hr.
    + intros Hempty. apply Hm in Hkf. by rewrite Hempty, lookup_empty in Hkf.
Qed.

(** The scenario of the root [proto] with two schema files. *)
Lemma bucket_success_exact_witness :
  ∃ config,
    newConfig ["proto"] [] = inr config ∧
    walksOk (bucketOf ["proto/foo/a.proto"; "proto/foo/b.proto"])
      (Roots config) ∧
    ¬ collision (bucketOf ["proto/foo/a.proto"; "proto/foo/b.proto"])
        (Roots config).
Proof.
  destruct (proj1 (bucket_success_exact (MR:=rangeForward)
              (bucketOf ["proto/foo/a.proto"; "proto/foo/b.proto"])
              ["proto"] []
              {| ProtoFileSetRoots := ["proto"];
                 RootFilePathToRealFilePath :=
                   {[ "foo/a.proto" := "proto/foo/a.proto";
                      "foo/b.proto" := "proto/foo/b.proto" ]} |}))
    as (config & Hc & Hw & Hcoll & _).
  - vm_compute. reflexivity.
  - by exists config.
Defined.

(** X4: files without the [.proto] extension take no part in the root
    scan: two buckets that enumerate the same schema files, in the same
    order, and end their enumerations alike give the same result, whatever
    other files they hold and whether or not those have a valid relative
    path. *)
Theorem bucket_ignores_other_files
  {E} {SP : Storagepath E} {ST : Storage E} {CP : ConfigProvider E}
  {MR : MapRange} (bucket1 bucket2 : ReadBucket E)
  (roots excludes : list string) :
  (∀ config root, newConfig roots excludes = inr config →
     root ∈ Roots config →
     filter (λ f, Ext f = ".proto") (Walk bucket1 root).1 =
       filter (λ f, Ext f = ".proto") (Walk bucket2 root).1 ∧
     (Walk bucket1 root).2 = (Walk bucket2 root).2) →
  GetProtoFileSetForBucket bucket1 roots excludes =
    GetProtoFileSetForBucket bucket2 roots excludes.
Proof.
  intros H. unfold GetProtoFileSetForBucket.
  destruct (newConfig roots excludes) as [e|config] eqn:Hc; simpl; [done|].
  rewrite (walkRoots_ext bucket1 bucket2); [done|].
  intros root acc Hroot. destruct (H config root eq_refl Hroot) as [Hf He].
  unfold walkRoot.
  by rewrite (walkVisit_schema_files root (Walk bucket1 root).1),
    (walkVisit_schema_files root (Walk bucket2 root).1), Hf, He.
Qed.

(** A text file beside the schema file of the root [proto]. *)
Lemma bucket_ignores_other_files_witness :
  GetProtoFileSetForBucket (MR:=rangeForward)
    (bucketOf ["proto/a.proto"; "proto/notes.txt"]) ["proto"] [] =
  GetProtoFileSetForBucket (MR:=rangeForward)
    (bucketOf ["proto/a.proto"]) ["proto"] [] ∧
  GetProtoFileSetForBucket (MR:=rangeForward)
    (bucketOf ["proto/a.proto"]) ["proto"] [] =
    Ok {| ProtoFileSetRoots := ["proto"];
          RootFilePathToRealFilePath :=
            {[ "a.proto" := "proto/a.proto" ]} |}.
Proof.
  split; [|vm_compute; reflexivity].
  apply (bucket_ignores_other_files (MR:=rangeForward)).
  intros config root [= <-] Hroot%list_elem_of_singleton. subst root.
  split; vm_compute; reflexivity.
Defined.

(** X5: when the enumerations succeed, the result of the root scan
    depends on which schema files the bucket enumerates under each root,
    not on their order nor on repetitions. *)
Theorem bucket_enumeration_order_irrelevant
  {E} {SP : Storagepath E} {ST : Storage E} {CP : ConfigProvider E}
  {MR : MapRange} (bucket1 bucket2 : ReadBucket E)
  (roots excludes : list string) (config : Config) :
  newConfig roots excludes = inr config →
  walksOk bucket1 (Roots config) →
  (∀ root, root ∈ Roots config →
     (Walk bucket2 root).2 = None ∧
     ∀ f, Ext f = ".proto" →
          f ∈ (Walk bucket1 root).1 ↔ f ∈ (Walk bucket2 root).1) →
  GetProtoFileSetForBucket bucket1 roots excludes =
    GetProtoFileSetForBucket bucket2 roots excludes.
Proof.
  intros Hc Hw1 Hsame.
  assert (walksOk bucket2 (Roots config)) as Hw2.
  { intros root Hroot. destruct (Hsame root Hroot) as [He Hf].
    split; [done|]. intros f Hin Hext.
    apply (Hw1 root Hroot). by apply Hf. done. }
  assert (∀ k f, produces bucket1 (Roots config) k f ↔
                 produces bucket2 (Roots config) k f) as Hprod.
  { intros k f. unfold produces. split.
    - intros (root & Hroot & Hin & Hext & Hk). exists root.
      split; [done|]. split; [|done].
      by apply (proj2 (Hsame root Hroot) f Hext).
    - intros (root & Hroot & Hin & Hext & Hk). exists root.
      split; [done|]. split; [|done].
      by apply (proj2 (Hsame root Hroot) f Hext). }
  apply (walkRoots_is_Ok _ _ ∅) in Hw1 as [M1 HW1].
  apply (walkRoots_is_Ok _ _ ∅) in Hw2 as [M2 HW2].
  rewrite (bucket_after_walk _ _ _ _ _ Hc HW1),
    (bucket_after_walk _ _ _ _ _ Hc HW2).
  apply walkRoots_from_empty in HW1 as [Hinh1 HM1].
  apply walkRoots_from_empty in HW2 as [Hinh2 HM2].
  assert (M1 = M2) as ->; [|done].
  apply allInhabited_eq; [done..|].
  intros k. apply set_eq. intros f. by rewrite HM1, HM2.
Qed.

(** The two schema files of the root [proto], enumerated in the other
    order and with a repetition. *)
Lemma bucket_enumeration_order_irrelevant_witness :
  GetProtoFileSetForBucket (MR:=rangeForward)
    (bucketOf ["proto/a.proto"; "proto/b.proto"]) ["proto"] [] =
  GetProtoFileSetForBucket (MR:=rangeForward)
    (bucketOf ["proto/b.proto"; "proto/a.proto"; "proto/b.proto"])
    ["proto"] [] ∧
  GetProtoFileSetForBucket (MR:=rangeForward)
    (bucketOf ["proto/a.proto"; "proto/b.proto"]) ["proto"] [] =
    Ok {| ProtoFileSetRoots := ["proto"];
          RootFilePathToRealFilePath :=
            {[ "a.proto" := "proto/a.proto";
               "b.proto" := "proto/b.proto" ]} |}.
Proof.
  split; [|vm_compute; reflexivity].
  apply (bucket_enumeration_order_irrelevant (MR:=rangeForward) _ _ _ _
           {| Roots := ["proto"]; Excludes := [] |}).
  - reflexivity.
  - apply (walkRoots_is_Ok _ _ ∅). eexists. vm_compute. reflexivity.
  - intros root Hroot%list_elem_of_singleton. subst root.
    split; [reflexivity|]. intros f _.
    change (f ∈ ["proto/a.proto"; "proto/b.proto"] ↔
            f ∈ ["proto/b.proto"; "proto/a.proto"; "proto/b.proto"]).
    rewrite !elem_of_cons, !elem_of_nil. tauto.
Defined.

(** X6: the root scan stops at the first enumeration that fails and hands
    its error through as it is: after roots whose enumerations succeed,
    the error a bucket ends an enumeration with, and the error of the
    first schema file without a valid logical path, are the result,
    whatever the later roots and the excludes are. *)
Theorem bucket_walk_error_surfaced
  {E} {SP : Storagepath E} {ST : Storage E} {CP : ConfigProvider E}
  {MR : MapRange} (bucket : ReadBucket E) (roots excludes : list string)
  (config : Config) (roots1 roots2 : list string) (root : string) :
  newConfig roots excludes = inr config →
  Roots config = (roots1 ++ root :: roots2)%list →
  walksOk bucket roots1 →
  (∀ e, (Walk bucket root).2 = Some e →
     (∀ f, f ∈ (Walk bucket root).1 → Ext f = ".proto" →
           is_Ok (logicalPath root f)) →
     GetProtoFileSetForBucket bucket roots excludes =
       Err (ErrCollaborator e)) ∧
  (∀ l1 f l2 e, (Walk bucket root).1 = (l1 ++ f :: l2)%list →
     (∀ g, g ∈ l1 → Ext g = ".proto" → is_Ok (logicalPath root g)) →
     Ext f = ".proto" → logicalPath root f = Err e →
     GetProtoFileSetForBucket bucket roots excludes = Err e).
Proof.
  intros Hc Hroots [M1 HW1]%(walkRoots_is_Ok _ _ ∅).
  split.
  - intros e He Hfiles. apply (bucket_walk_error _ _ _ config); [done|].
    rewrite Hroots, walkRoots_app, HW1. simpl. unfold walkRoot.
    apply (walkVisit_is_Ok root _ M1) in Hfiles as [acc Hv].
    by rewrite Hv, He.
  - intros l1 f l2 e Hl Hfiles Hext Hf.
    apply (bucket_walk_error _ _ _ config); [done|].
    rewrite Hroots, walkRoots_app, HW1. simpl. unfold walkRoot.
    rewrite Hl, walkVisit_app.
    apply (walkVisit_is_Ok root _ M1) in Hfiles as [acc Hv].
    rewrite Hv. simpl. rewrite visit_proto by done. by rewrite Hf.
Qed.

(** Roots [proto] and [vendor]: a schema file enumerated under [vendor]
    that is not below it has no logical path, and its error is the
    result. *)
Lemma bucket_walk_error_surfaced_witness :
  GetProtoFileSetForBucket (MR:=rangeForward)
    {| Walk prefix :=
         if decide (prefix = "vendor") then (["elsewhere/x.proto"], None)
         else (["proto/a.proto"], None);
       Stat path := None |}
    ["proto"; "vendor"] [] =
    Err (ErrCollaborator (NotWithin "vendor" "elsewhere/x.proto")).
Proof.
  refine (proj2
    (bucket_walk_error_surfaced (MR:=rangeForward) _ ["proto"; "vendor"] []
       {| Roots := ["proto"; "vendor"]; Excludes := [] |}
       ["proto"] [] "vendor" _ _ _)
    [] "elsewhere/x.proto" [] _ _ _ _ _).
  - reflexivity.
  - reflexivity.
  - apply (walkRoots_is_Ok _ _ ∅). eexists. vm_compute. reflexivity.
  - reflexivity.
  - intros g Hg. by apply elem_of_nil in Hg.
  - reflexivity.
  - reflexivity.
Defined.

(** X7: the set returned with excludes is the set returned without them,
    filtered by the directory of the real path: an entry stays exactly
    when the directory of its real path matches no exclude. *)
Theorem exclude_filters_by_real_directory
  {E} {SP : Storagepath E} {ST : Storage E} {CP : ConfigProvider E}
  {MR : MapRange} (bucket : ReadBucket E) (roots excludes : list string)
  (config0 config : Config) (pfs0 pfs : ProtoFileSet) :
  newConfig roots [] = inr config0 → Excludes config0 = [] →
  newConfig roots excludes = inr config → Roots config = Roots config0 →
  Excludes config ≠ [] →
  GetProtoFileSetForBucket bucket roots [] = Ok pfs0 →
  GetProtoFileSetForBucket bucket roots excludes = Ok pfs →
  ∀ k f, RootFilePathToRealFilePath pfs !! k = Some f ↔
           RootFilePathToRealFilePath pfs0 !! k = Some f ∧
           MapContainsMatch (SliceToMap (Excludes config)) (Dir f) = false.
Proof.
  intros Hc0 Hex0 Hc Hroots Hex H0 H k f.
  apply bucket_Ok_inv in H0 as (c0 & Hc0' & _ & _ & _ & _ & Hm0).
  apply bucket_Ok_inv in H as (c & Hc' & _ & _ & _ & _ & Hm).
  rewrite Hc0 in Hc0'. injection Hc0' as <-.
  rewrite Hc in Hc'. injection Hc' as <-.
  rewrite Hm, Hm0, Hroots. unfold kept. rewrite Hex0. simpl.
  split.
  - intros [Hp [Hlen | Hk]]; [by destruct (Excludes config)|].
    split; [split; [done|by left]|done].
  - intros [[Hp _] Hk]. split; [done|by right].
Qed.

(** Root [proto] with [proto/foo/a.proto] and [proto/bar/b.proto], and
    the exclude [proto/foo]. *)
Lemma exclude_filters_by_real_directory_witness :
  MapContainsMatch (SliceToMap ["proto/foo"]) (Dir "proto/foo/a.proto") =
    true ∧
  (({[ "bar/b.proto" := "proto/bar/b.proto" ]} : gmap string string)
     !! "foo/a.proto" = Some "proto/foo/a.proto" ↔
   ({[ "foo/a.proto" := "proto/foo/a.proto";
       "bar/b.proto" := "proto/bar/b.proto" ]} : gmap string string)
     !! "foo/a.proto" = Some "proto/foo/a.proto" ∧
   MapContainsMatch (SliceToMap ["proto/foo"]) (Dir "proto/foo/a.proto") =
     false).
Proof.
  split; [vm_compute; reflexivity|].
  refine (exclude_filters_by_real_directory (MR:=rangeForward)
            (bucketOf ["proto/foo/a.proto"; "proto/bar/b.proto"]) ["proto"]
            ["proto/foo"]
            {| Roots := ["proto"]; Excludes := [] |}
            {| Roots := ["proto"]; Excludes := ["proto/foo"] |}
            {| ProtoFileSetRoots := ["proto"];
               RootFilePathToRealFilePath :=
                 {[ "foo/a.proto" := "proto/foo/a.proto";
                    "bar/b.proto" := "proto/bar/b.proto" ]} |}
            {| ProtoFileSetRoots := ["proto"];
               RootFilePathToRealFilePath :=
                 {[ "bar/b.proto" := "proto/bar/b.proto" ]} |}
            _ _ _ _ _ _ _ "foo/a.proto" "proto/foo/a.proto").
  - reflexivity.
  - reflexivity.
  - reflexivity.
  - reflexivity.
  - discriminate.
  - vm_compute. reflexivity.
  - vm_compute. reflexivity.
Defined.

(** ** Further properties of the explicit list *)

Section lookups.
Context {E : Type}.
Context {SP : Storagepath E} {ST : Storage E} {CP : ConfigProvider E}.
Context {MR : MapRange}.

Implicit Types (bucket : ReadBucket E) (seen : gset string).

(** A loop that ends well without the tolerance flag ends the same way
    with it. *)
Lemma statLoop_tolerance bucket paths seen stats seen' :
  statLoop bucket false paths seen = (stats, Ok seen') →
  statLoop bucket true paths seen = (stats, Ok seen').
Proof.
  revert seen stats. induction paths as [|p paths IH]; intros seen stats.
  - done.
  - simpl. destruct (NormalizeAndValidate p) as [e|n]; [done|].
    destruct (decide (n ∈ seen)) as [|Hfresh]; [done|].
    destruct (Stat bucket n) as [e|].
    + by destruct (IsNotExist e).
    + destruct (statLoop bucket false paths (seen ∪ {[n]}))
        as [stats1 r] eqn:Hl.
      intros [= <- ->]. by rewrite (IH _ _ Hl).
Qed.

(** The recorded paths are not looked up again. *)
Lemma statLoop_stats_fresh bucket allow paths seen stats r n :
  statLoop bucket allow paths seen = (stats, r) → n ∈ seen → n ∉ stats.
Proof.
  revert seen stats r. induction paths as [|p paths IH]; intros seen stats r.
  - intros [= <- _] _. apply not_elem_of_nil.
  - simpl. destruct (NormalizeAndValidate p) as [e|n0];
      [intros [= <- _] _; apply not_elem_of_nil|].
    destruct (decide (n0 ∈ seen)) as [|Hfresh];
      [intros [= <- _] _; apply not_elem_of_nil|].
    assert (n ∈ seen → n ≠ n0) as Hne by (intros ? ->; done).
    destruct (Stat bucket n0) as [e|].
    + destruct (IsNotExist e); simpl.
      * destruct allow; simpl.
        -- destruct (statLoop bucket true paths seen) as [stats1 r1] eqn:Hl.
           intros [= <- _] Hn. apply not_elem_of_cons.
           split; [by apply Hne|by eapply IH].
        -- intros [= <- _] Hn. apply not_elem_of_cons.
           split; [by apply Hne|apply not_elem_of_nil].
      * intros [= <- _] Hn. apply not_elem_of_cons.
        split; [by apply Hne|apply not_elem_of_nil].
    + destruct (statLoop bucket allow paths (seen ∪ {[n0]}))
        as [stats1 r1] eqn:Hl.
      intros [= <- _] Hn. apply not_elem_of_cons.
      split; [by apply Hne|]. eapply IH; [done|]. by apply elem_of_union_l.
Qed.

(** Whatever the outcome, the lookups follow the list: one lookup for each
    entry of a prefix of the list, and no second lookup of a path that was
    found. *)
Lemma statLoop_stats_prefix bucket allow paths seen stats r :
  statLoop bucket allow paths seen = (stats, r) →
  (∃ l1 l2, paths = (l1 ++ l2)%list ∧
            Forall2 (λ p n, NormalizeAndValidate p = inr n) l1 stats) ∧
  (∀ l1 n l2, stats = (l1 ++ n :: l2)%list → Stat bucket n = None →
              (n ∉ l1) ∧ (n ∉ l2)).
Proof.
  revert seen stats r. induction paths as [|p paths IH]; intros seen stats r.
  - intros [= <- _]. split; [by exists [], []|].
    intros l1 n l2 Hl. by destruct l1.
  - assert (∀ n0 : string,
              (∃ l1 l2, p :: paths = (l1 ++ l2)%list ∧
                 Forall2 (λ p n, NormalizeAndValidate p = inr n) l1 []) ∧
              (∀ l1 n l2, ([] : list string) = (l1 ++ n :: l2)%list →
                          Stat bucket n = None → (n ∉ l1) ∧ (n ∉ l2))) as Hnil.
    { intros _. split; [by exists [], (p :: paths)|].
      intros l1 n l2 Hl. by destruct l1. }
    assert (∀ n0, NormalizeAndValidate p = inr n0 →
              (∃ l1 l2, p :: paths = (l1 ++ l2)%list ∧
                 Forall2 (λ p n, NormalizeAndValidate p = inr n) l1 [n0]) ∧
              (∀ l1 n l2, [n0] = (l1 ++ n :: l2)%list →
                          Stat bucket n = None → (n ∉ l1) ∧ (n ∉ l2))) as Hone.
    { intros n0 Hn0. split.
      - exists [p], paths. split; [done|]. by repeat constructor.
      - intros l1 n l2 Hl _. destruct l1 as [|x [|y l1]]; [|done..].
        injection Hl as -> <-. split; apply not_elem_of_nil. }
    simpl. destruct (NormalizeAndValidate p) as [e|n0] eqn:Hn0;
      [intros [= <- _]; by apply Hnil|].
    destruct (decide (n0 ∈ seen)) as [|Hfresh];
      [intros [= <- _]; by apply Hnil|].
    destruct (Stat bucket n0) as [e|] eqn:Hs.
    + destruct (IsNotExist e); simpl; [|intros [= <- _]; by apply Hone].
      destruct allow; simpl; [|intros [= <- _]; by apply Hone].
      destruct (statLoop bucket true paths seen) as [stats1 r1] eqn:Hl.
      intros [= <- _]. destruct (IH _ _ _ Hl) as [(l1 & l2 & -> & HF) Honce].
      split.
      * exists (p :: l1), l2. split; [done|by constructor].
      * intros [|x l1'] n l2' Heq Hsn.
        -- injection Heq as -> ->. congruence.
        -- injection Heq as -> ->.
           destruct (Honce _ _ _ eq_refl Hsn) as [H1 H2].
           split; [|done]. apply not_elem_of_cons. split; [|done].
           intros ->. congruence.
    + destruct (statLoop bucket allow paths (seen ∪ {[n0]}))
        as [stats1 r1] eqn:Hl.
      intros [= <- _]. destruct (IH _ _ _ Hl) as [(l1 & l2 & -> & HF) Honce].
      assert (n0 ∉ stats1) as Hn0s.
      { eapply statLoop_stats_fresh; [done|].
        apply elem_of_union_r. by apply elem_of_singleton. }
      split.
      * exists (p :: l1), l2. split; [done|by constructor].
      * intros [|x l1'] n l2' Heq Hsn.
        -- injection Heq as -> ->. split; [apply not_elem_of_nil|done].
        -- injection Heq as -> ->.
           destruct (Honce _ _ _ eq_refl Hsn) as [H1 H2].
           split; [|done]. apply not_elem_of_cons. split; [|done].
           intros ->. apply Hn0s. apply elem_of_app. right. by left.
Qed.

(** With the tolerance flag, a list of missing paths leaves the recorded
    paths as they are. *)
Lemma statLoop_all_missing bucket paths seen ns :
  allExist bucket seen →
  Forall2 (λ p n, NormalizeAndValidate p = inr n) paths ns →
  (∀ n, n ∈ ns → ∃ e, Stat bucket n = Some e ∧ IsNotExist e = true) →
  statLoop bucket true paths seen = (ns, Ok seen).
Proof.
  intros Hseen HF. induction HF as [|p n paths ns Hn HF IH]; intros Hall.
  - done.
  - destruct (Hall n) as (e & Hs & He); [by left|].
    rewrite (statLoop_skip_missing _ _ _ _ _ _ Hseen Hn Hs He).
    rewrite IH; [done|]. intros n' Hn'. apply Hall. by right.
Qed.


End lookups.

(** X8: the tolerance flag changes no successful resolution: when
    [GetProtoFileSetForRealFilePaths] returns a set without the flag, it
    returns the same set after the same lookups with it. *)
Theorem explicit_tolerance_keeps_success
  {E} {SP : Storagepath E} {ST : Storage E} {CP : ConfigProvider E}
  {MR : MapRange} (bucket : ReadBucket E) (roots paths : list string)
  (stats : list string) (pfs : ProtoFileSet) :
  GetProtoFileSetForRealFilePaths bucket roots paths false =
    (stats, Ok pfs) →
  GetProtoFileSetForRealFilePaths bucket roots paths true = (stats, Ok pfs).
Proof.
  intros HR.
  destruct (newConfig roots []) as [e|config] eqn:Hc.
  { by rewrite (explicit_config_failure _ _ _ _ _ Hc) in HR. }
  destruct (statLoop bucket false paths ∅) as [stats0 [e|S]] eqn:Hl.
  { by rewrite (explicit_stat_failure _ _ _ _ _ _ _ Hc Hl) in HR. }
  rewrite (explicit_survivors _ _ _ _ _ _ _ Hc Hl) in HR.
  by rewrite (explicit_survivors _ _ _ _ _ _ _ Hc (statLoop_tolerance _ _ _ _ _ Hl)).
Qed.

(** The file [proto/a.proto] of the root [proto]. *)
Lemma explicit_tolerance_keeps_success_witness :
  GetProtoFileSetForRealFilePaths (MR:=rangeForward)
    (bucketOf ["proto/a.proto"]) ["proto"] ["proto/a.proto"] true =
    (["proto/a.proto"],
     Ok {| ProtoFileSetRoots := ["proto"];
           RootFilePathToRealFilePath :=
             {[ "a.proto" := "proto/a.proto" ]} |}).
Proof.
  apply (explicit_tolerance_keeps_success (MR:=rangeForward)).
  vm_compute. reflexivity.
Defined.

(** X9: when no explicit path survives,
    [GetProtoFileSetForRealFilePaths] fails with the "no input files
    specified" error: for the empty list, with or without the tolerance
    flag, and, with the flag, for a list of paths none of which exists,
    after one lookup of each. *)
Theorem explicit_no_input_files
  {E} {SP : Storagepath E} {ST : Storage E} {CP : ConfigProvider E}
  {MR : MapRange} (bucket : ReadBucket E) (roots paths ns : list string)
  (config : Config) :
  newConfig roots [] = inr config →
  Forall2 (λ p n, NormalizeAndValidate p = inr n) paths ns →
  (∀ n, n ∈ ns → ∃ e, Stat bucket n = Some e ∧ IsNotExist e = true) →
  GetProtoFileSetForRealFilePaths bucket roots paths true =
    (ns, Err ErrNoInputFilesSpecified) ∧
  ∀ allow, GetProtoFileSetForRealFilePaths bucket roots [] allow =
             ([], Err ErrNoInputFilesSpecified).
Proof.
  intros Hc HF Hmissing. split.
  - apply (explicit_empty _ _ _ _ config); [done|].
    apply statLoop_all_missing; [|done..].
    intros n Hn. by apply not_elem_of_empty in Hn.
  - intros allow. by apply (explicit_empty _ _ _ _ config).
Qed.

(** Two paths of the root [proto] that are not in the bucket. *)
Lemma explicit_no_input_files_witness :
  GetProtoFileSetForRealFilePaths (MR:=rangeForward)
    (bucketOf ["proto/a.proto"]) ["proto"]
    ["proto/y.proto"; "proto/z.proto"] true =
    (["proto/y.proto"; "proto/z.proto"], Err ErrNoInputFilesSpecified).
Proof.
  refine (proj1
    (explicit_no_input_files (MR:=rangeForward)
       (bucketOf ["proto/a.proto"]) ["proto"]
       ["proto/y.proto"; "proto/z.proto"]
       ["proto/y.proto"; "proto/z.proto"]
       {| Roots := ["proto"]; Excludes := [] |} _ _ _)).
  - reflexivity.
  - repeat constructor.
  - intros n [-> | [-> | Hn%elem_of_nil]%elem_of_cons]%elem_of_cons;
      [| |done]; eexists; split; reflexivity.
Defined.

(** X10: [GetProtoFileSetForRealFilePaths] stops at the first entry it
    cannot take: after entries processed without error, an entry that does
    not normalize fails with the error of the normalization before its
    lookup, and an entry whose lookup fails with another error than "does
    not exist", or with that one and no tolerance flag, fails with the
    error of the lookup; no later entry is looked up. *)
Theorem explicit_stops_at_first_failure
  {E} {SP : Storagepath E} {ST : Storage E} {CP : ConfigProvider E}
  {MR : MapRange} (bucket : ReadBucket E) (roots : list string)
  (allow : bool) (config : Config) (l1 l2 : list string) (p : string)
  (stats : list string) (S : gset string) :
  newConfig roots [] = inr config →
  statLoop bucket allow l1 ∅ = (stats, Ok S) →
  (∀ e, NormalizeAndValidate p = inl e →
     GetProtoFileSetForRealFilePaths bucket roots (l1 ++ p :: l2)%list allow =
       (stats, Err (ErrCollaborator e))) ∧
  (∀ n e, NormalizeAndValidate p = inr n → n ∉ S →
     Stat bucket n = Some e → IsNotExist e = false ∨ allow = false →
     GetProtoFileSetForRealFilePaths bucket roots (l1 ++ p :: l2)%list allow =
       ((stats ++ [n])%list, Err (ErrCollaborator e))).
Proof.
  intros Hc Hl. split.
  - intros e Hn. apply (explicit_stat_failure _ _ _ _ config); [done|].
    rewrite statLoop_app, Hl. simpl. rewrite Hn. simpl.
    by rewrite app_nil_r.
  - intros n e Hn Hfresh Hs Hwhy.
    apply (explicit_stat_failure _ _ _ _ config); [done|].
    rewrite statLoop_app, Hl. simpl. rewrite Hn, decide_False by done.
    rewrite Hs. destruct Hwhy as [-> | ->]; [done|].
    by destruct (IsNotExist e).
Qed.

(** After [proto/a.proto], the path [proto/b.proto] is missing: without
    the tolerance flag the third path is not looked up. *)
Lemma explicit_stops_at_first_failure_witness :
  GetProtoFileSetForRealFilePaths (MR:=rangeForward)
    (bucketOf ["proto/a.proto"; "proto/c.proto"]) ["proto"]
    ["proto/a.proto"; "proto/b.proto"; "proto/c.proto"] false =
    (["proto/a.proto"; "proto/b.proto"],
     Err (ErrCollaborator (NotExist "proto/b.proto"))).
Proof.
  refine (proj2
    (explicit_stops_at_first_failure (MR:=rangeForward)
       (bucketOf ["proto/a.proto"; "proto/c.proto"]) ["proto"] false
       {| Roots := ["proto"]; Excludes := [] |}
       ["proto/a.proto"] ["proto/c.proto"] "proto/b.proto"
       ["proto/a.proto"] {[ "proto/a.proto" ]} _ _)
    "proto/b.proto" (NotExist "proto/b.proto") _ _ _ _).
  - reflexivity.
  - vm_compute. reflexivity.
  - reflexivity.
  - intros [=]%elem_of_singleton.
  - reflexivity.
  - by right.
Defined.

(** X11: whatever the outcome, the lookups of
    [GetProtoFileSetForRealFilePaths] follow the explicit list:
    [bucket.Stat] is called on the normalized entries of a prefix of the
    list, once for each entry and in their order, and a path that was
    found is not looked up a second time. *)
Theorem explicit_lookups_follow_list
  {E} {SP : Storagepath E} {ST : Storage E} {CP : ConfigProvider E}
  {MR : MapRange} (bucket : ReadBucket E) (roots paths : list string)
  (allow : bool) :
  (∃ l1 l2, paths = (l1 ++ l2)%list ∧
     Forall2 (λ p n, NormalizeAndValidate p = inr n) l1
       (GetProtoFileSetForRealFilePaths bucket roots paths allow).1) ∧
  (∀ l1 n l2,
     (GetProtoFileSetForRealFilePaths bucket roots paths allow).1 =
       (l1 ++ n :: l2)%list →
     Stat bucket n = None → (n ∉ l1) ∧ (n ∉ l2)).
Proof.
  unfold GetProtoFileSetForRealFilePaths.
  destruct (newConfig roots []) as [e|config]; simpl.
  - split; [exists [], paths; split; [done|constructor]|].
    intros l1 n l2 Hl. by destruct l1.
  - destruct (statLoop bucket allow paths ∅) as [stats r] eqn:Hl. simpl.
    by apply (statLoop_stats_prefix _ _ _ _ _ _ Hl).
Qed.

(** The lookups of the scenario of X10. *)
Lemma explicit_lookups_follow_list_witness :
  (GetProtoFileSetForRealFilePaths (MR:=rangeForward)
     (bucketOf ["proto/a.proto"; "proto/c.proto"]) ["proto"]
     ["proto/a.proto"; "proto/b.proto"; "proto/c.proto"] false).1 =
    ["proto/a.proto"; "proto/b.proto"] ∧
  ∃ l1 l2,
    ["proto/a.proto"; "proto/b.proto"; "proto/c.proto"] = (l1 ++ l2)%list ∧
    Forall2 (λ p n, NormalizeAndValidate p = inr n) l1
      (GetProtoFileSetForRealFilePaths (MR:=rangeForward)
         (bucketOf ["proto/a.proto"; "proto/c.proto"]) ["proto"]
         ["proto/a.proto"; "proto/b.proto"; "proto/c.proto"] false).1.
Proof.
  split; [vm_compute; reflexivity|].
  exact (proj1 (explicit_lookups_follow_list (MR:=rangeForward)
                  (bucketOf ["proto/a.proto"; "proto/c.proto"]) ["proto"]
                  ["proto/a.proto"; "proto/b.proto"; "proto/c.proto"]
                  false)).
Defined.

Section survivors.
Context {E : Type}.
Context {SP : Storagepath E} {ST : Storage E} {CP : ConfigProvider E}.
Context {MR : MapRange}.

Implicit Types (bucket : ReadBucket E) (seen : gset string).
Implicit Types (acc : gmap string string).

(** The loop over a list whose entries normalize, exist or are tolerated,
    and name no existing path twice. *)
Lemma statLoop_declarative bucket allow paths ns seen :
  allExist bucket seen →
  Forall2 (λ p n, NormalizeAndValidate p = inr n) paths ns →
  (∀ n, n ∈ ns →
     Stat bucket n = None ∨
     (allow = true ∧ ∃ e, Stat bucket n = Some e ∧ IsNotExist e = true)) →
  (∀ n, n ∈ ns → Stat bucket n = None → n ∉ seen) →
  (∀ l1 n l2, ns = (l1 ++ n :: l2)%list → Stat bucket n = None → n ∉ l1) →
  ∃ S, statLoop bucket allow paths seen = (ns, Ok S) ∧
       ∀ n, n ∈ S ↔ n ∈ seen ∨ (n ∈ ns ∧ Stat bucket n = None).
Proof.
  intros Hseen HF. revert seen Hseen.
  induction HF as [|p n paths ns Hn HF IH]; intros seen Hseen Htol Hnew Honce.
  - exists seen. split; [done|]. intros n. split; [by left|].
    intros [H | [H%elem_of_nil _]]; done.
  - assert (∀ l1 n' l2, ns = (l1 ++ n' :: l2)%list →
              Stat bucket n' = None → n' ∉ l1) as Honce'.
    { intros l1 n' l2 -> Hs Hin.
      apply (Honce (n :: l1) n' l2 eq_refl Hs). by right. }
    assert (∀ n', n' ∈ ns → Stat bucket n' = None → n' ≠ n) as Hdiff.
    { intros n' (l1 & l2 & ->)%list_elem_of_split Hs ->.
      apply (Honce (n :: l1) n l2 eq_refl Hs). by left. }
    simpl. rewrite Hn.
    destruct (Htol n) as [Hs | (-> & e & Hs & He)]; [by left|..].
    + rewrite decide_False by (apply Hnew; [by left|done]).
      rewrite Hs.
      destruct (IH (seen ∪ {[n]})) as (S & -> & HS).
      * intros x [Hx | ->%elem_of_singleton]%elem_of_union;
          [by apply Hseen|done].
      * intros n' Hn'. apply Htol. by right.
      * intros n' Hn' Hs' [Hx | ->%elem_of_singleton]%elem_of_union.
        -- by apply (Hnew n'); [right|..].
        -- by apply (Hdiff n).
      * done.
      * exists S. split; [done|]. intros x.
        rewrite HS, elem_of_union, elem_of_singleton, elem_of_cons. split.
        -- intros [[Hx | ->] | [Hx Hsx]]; [by left| |].
           ++ right. split; [by left|done].
           ++ right. split; [by right|done].
        -- intros [Hx | [[-> | Hx] Hsx]]; [by left; left|by left; right|].
           right. done.
    + rewrite decide_False.
      2:{ intros Hin. apply Hseen in Hin. congruence. }
      rewrite Hs, He. simpl.
      destruct (IH seen Hseen) as (S & -> & HS).
      * intros n' Hn'. apply Htol. by right.
      * intros n' Hn'. apply Hnew. by right.
      * done.
      * exists S. split; [done|]. intros x. rewrite HS, elem_of_cons. split.
        -- intros [Hx | [Hx Hsx]]; [by left|]. right. split; [by right|done].
        -- intros [Hx | [[-> | Hx] Hsx]]; [by left|congruence|by right].
Qed.




End survivors.

(** X12: [GetProtoFileSetForRealFilePaths] returns a set when the entries
    normalize, each exists or is missing under the tolerance flag, no
    existing path is named twice, each existing path is within exactly one
    root, no two of them have the same logical path, and one exists.
    [bucket.Stat] is then called once on each entry, and the set maps the
    logical path of each existing entry to it, whatever its extension and
    whether or not the bucket enumerates it. *)
Theorem explicit_success_exact
  {E} {SP : Storagepath E} {ST : Storage E} {CP : ConfigProvider E}
  {MR : MapRange} (bucket : ReadBucket E) (roots paths ns : list string)
  (allow : bool) (config : Config) :
  newConfig roots [] = inr config →
  Forall2 (λ p n, NormalizeAndValidate p = inr n) paths ns →
  (∀ n, n ∈ ns →
     Stat bucket n = None ∨
     (allow = true ∧ ∃ e, Stat bucket n = Some e ∧ IsNotExist e = true)) →
  (∀ l1 n l2, ns = (l1 ++ n :: l2)%list → Stat bucket n = None → n ∉ l1) →
  (∀ n, n ∈ ns → Stat bucket n = None →
     ∃ k, resolvesTo (Roots config) n k) →
  (∀ n1 n2 k, n1 ∈ ns → n2 ∈ ns →
     Stat bucket n1 = None → Stat bucket n2 = None →
     resolvesTo (Roots config) n1 k → resolvesTo (Roots config) n2 k →
     n1 = n2) →
  (∃ n, n ∈ ns ∧ Stat bucket n = None) →
  ∃ m : gmap string string,
    GetProtoFileSetForRealFilePaths bucket roots paths allow =
      (ns, Ok {| ProtoFileSetRoots := Roots config;
                 RootFilePathToRealFilePath := m |}) ∧
    ∀ k f, m !! k = Some f ↔
             f ∈ ns ∧ Stat bucket f = None ∧ resolvesTo (Roots config) f k.
Proof.
  intros Hc HF Htol Honce Hres Hinj (n0 & Hn0 & Hs0).
  destruct (statLoop_declarative bucket allow paths ns ∅) as (S & Hl & HS);
    [|done..| |done|].
  { intros n Hn. by apply not_elem_of_empty in Hn. }
  { intros n _ _. apply not_elem_of_empty. }
  assert (∀ n, n ∈ S ↔ n ∈ ns ∧ Stat bucket n = None) as HS'.
  { intros n. rewrite HS. split; [|by right].
    intros [H%not_elem_of_empty | H]; done. }
  destruct (explicit_resolved bucket roots paths allow config ns S Hc Hl)
    as (m & Hm & _ & Hlookup).
  - intros p [Hp Hsp]%HS'. by apply Hres.
  - intros p1 p2 k [H1 Hs1]%HS' [H2 Hs2]%HS'. by apply Hinj.
  - intros ->. assert (n0 ∈ (∅ : gset string)) as Hin by by apply HS'.
    by apply not_elem_of_empty in Hin.
  - exists m. split; [done|]. intros k f. rewrite Hlookup, HS'. tauto.
Qed.

(** The explicit path [proto/notes.txt] of the root [proto]: a file
    without the schema extension is taken. *)
Lemma explicit_success_exact_witness :
  ∃ m : gmap string string,
    GetProtoFileSetForRealFilePaths (MR:=rangeForward)
      (bucketOf ["proto/notes.txt"]) ["proto"] ["proto/notes.txt"] false =
      (["proto/notes.txt"],
       Ok {| ProtoFileSetRoots := ["proto"];
             RootFilePathToRealFilePath := m |}) ∧
    ∀ k f, m !! k = Some f ↔
             f ∈ ["proto/notes.txt"] ∧
             Stat (bucketOf ["proto/notes.txt"]) f = None ∧
             resolvesTo ["proto"] f k.
Proof.
  refine (explicit_success_exact (MR:=rangeForward)
            (bucketOf ["proto/notes.txt"]) ["proto"] ["proto/notes.txt"]
            ["proto/notes.txt"] false
            {| Roots := ["proto"]; Excludes := [] |} _ _ _ _ _ _ _).
  - reflexivity.
  - repeat constructor.
  - intros n ->%list_elem_of_singleton. by left.
  - intros [|x [|y l1]] n l2 Heq _; [apply not_elem_of_nil|done..].
  - intros n ->%list_elem_of_singleton _. exists "notes.txt", "proto".
    split; vm_compute; reflexivity.
  - by intros n1 n2 k ->%list_elem_of_singleton ->%list_elem_of_singleton.
  - exists "proto/notes.txt". split; [by left|reflexivity].
Defined.



(** X14: the order in which Go ranges over the maps does not show in a
    successful explicit resolution: the lookups are the same under every
    order, a set returned under one order is returned under every order,
    and so a failure under one order is a failure under every order. *)
Theorem explicit_outcome_any_order
  {E} {SP : Storagepath E} {ST : Storage E} {CP : ConfigProvider E}
  (MR1 MR2 : MapRange) (bucket : ReadBucket E) (roots paths : list string)
  (allow : bool) :
  (GetProtoFileSetForRealFilePaths (MR:=MR2) bucket roots paths allow).1 =
    (GetProtoFileSetForRealFilePaths (MR:=MR1) bucket roots paths allow).1 ∧
  (∀ pfs,
     (GetProtoFileSetForRealFilePaths (MR:=MR1) bucket roots paths allow).2 =
       Ok pfs →
     (GetProtoFileSetForRealFilePaths (MR:=MR2) bucket roots paths allow).2 =
       Ok pfs) ∧
  (is_Err (GetProtoFileSetForRealFilePaths (MR:=MR1) bucket roots paths
             allow).2 →
   is_Err (GetProtoFileSetForRealFilePaths (MR:=MR2) bucket roots paths
             allow).2).
Proof.
  assert (∀ MRa MRb pfs,
    (GetProtoFileSetForRealFilePaths (MR:=MRa) bucket roots paths allow).2 =
      Ok pfs →
    (GetProtoFileSetForRealFilePaths (MR:=MRb) bucket roots paths allow).2 =
      Ok pfs) as Hsame.
  { intros MRa MRb pfs
      (config & stats & S & Hc & Hl & Hr & Hne & Hm & Hall & Hinj)%explicit_Ok_inv.
    destruct (explicit_resolved (MR:=MRb) bucket roots paths allow config
                stats S Hc Hl Hall Hinj) as (m & -> & _ & Hm').
    - intros ->. apply map_choose in Hne as (k & f & Hkf).
      apply Hm in Hkf as [Hf%not_elem_of_empty _]. done.
    - simpl. destruct pfs as [r m0]. simpl in *. subst r. do 2 f_equal.
      apply map_eq. intros k. apply option_eq. intros f.
      by rewrite Hm, Hm'. }
  split; [|split].
  - unfold GetProtoFileSetForRealFilePaths.
    destruct (newConfig roots []); [done|].
    by destruct (statLoop bucket allow paths ∅).
  - apply Hsame.
  - intros Herr. apply is_Err_not_Ok. intros [pfs Hok].
    apply is_Err_not_Ok in Herr. apply Herr. exists pfs.
    by apply (Hsame MR2 MR1).
Qed.

(** The two files of the roots [a] and [b]: the backward iteration
    returns what the forward iteration returns. *)
Lemma explicit_outcome_any_order_witness :
  (GetProtoFileSetForRealFilePaths (MR:=rangeForward)
     (bucketOf ["a/x.proto"; "b/y.proto"]) ["a"; "b"]
     ["a/x.proto"; "b/y.proto"] false).2 =
    Ok {| ProtoFileSetRoots := ["a"; "b"];
          RootFilePathToRealFilePath :=
            {[ "x.proto" := "a/x.proto"; "y.proto" := "b/y.proto" ]} |} ∧
  (GetProtoFileSetForRealFilePaths (MR:=rangeBackward)
     (bucketOf ["a/x.proto"; "b/y.proto"]) ["a"; "b"]
     ["a/x.proto"; "b/y.proto"] false).2 =
    Ok {| ProtoFileSetRoots := ["a"; "b"];
          RootFilePathToRealFilePath :=
            {[ "x.proto" := "a/x.proto"; "y.proto" := "b/y.proto" ]} |}.
Proof.
  split; [vm_compute; reflexivity|].
  apply (proj1 (proj2 (explicit_outcome_any_order rangeForward rangeBackward
                         (bucketOf ["a/x.proto"; "b/y.proto"]) ["a"; "b"]
                         ["a/x.proto"; "b/y.proto"] false))).
  vm_compute. reflexivity.
Defined.

(** ** The format flags *)

Import GoAscii.

Lemma toLowerByte_idem (c : ascii) : toLowerByte (toLowerByte c) = toLowerByte c.
Proof. by destruct c as [[] [] [] [] [] [] [] []]. Qed.


Lemma toLower_idem (s : string) : toLower (toLower s) = toLower s.
Proof.
  induction s as [|c s IH]; simpl; [done|].
  by rewrite toLowerByte_idem, IH.
Qed.

Lemma toLower_app (s1 s2 : string) :
  toLower (s1 ++ s2) = toLower s1 ++ toLower s2.
Proof. induction s1 as [|c s1 IH]; simpl; [done|]. by rewrite IH. Qed.

Lemma allSpace_toLower (s : string) : allSpace s = true → toLower s = s.
Proof.
  induction s as [|c s IH]; simpl; [done|].
  intros [Hc Hs]%andb_true_iff. rewrite (IH Hs). f_equal.
  revert Hc. by destruct c as [[] [] [] [] [] [] [] []].
Qed.


Lemma toLower_empty (s : string) : toLower s = "" ↔ s = "".
Proof. by destruct s. Qed.



Lemma trimLeft_pad (ws s : string) :
  allSpace ws = true → trimLeft (ws ++ s) = trimLeft s.
Proof.
  induction ws as [|c ws IH]; simpl; [done|].
  intros [-> Hs]%andb_true_iff. by apply IH.
Qed.

Lemma trimRight_allSpace (ws : string) :
  allSpace ws = true → trimRight ws = "".
Proof.
  induction ws as [|c ws IH]; simpl; [done|].
  intros [-> Hs]%andb_true_iff. by rewrite (IH Hs).
Qed.

Lemma trimRight_pad (s ws : string) :
  allSpace ws = true → trimRight (s ++ ws) = trimRight s.
Proof.
  intros Hws. induction s as [|c s IH]; simpl.
  - by apply trimRight_allSpace.
  - by rewrite IH.
Qed.

Lemma trimLeft_allSpace (ws : string) :
  allSpace ws = true → trimLeft ws = "".
Proof.
  induction ws as [|c ws IH]; simpl; [done|].
  intros [-> Hs]%andb_true_iff. by apply IH.
Qed.

Lemma trimSpace_pad (ws1 s ws2 : string) :
  allSpace ws1 = true → allSpace ws2 = true →
  trimSpace (ws1 ++ s ++ ws2) = trimSpace s.
Proof.
  intros H1 H2. unfold trimSpace. rewrite trimLeft_pad by done.
  induction s as [|c s IH]; simpl.
  - by rewrite trimLeft_allSpace.
  - destruct (isSpace c); [done|].
    simpl. by rewrite trimRight_pad.
Qed.





(** X15: the lint format checks extend the general one: a format
    [IsFormatJSON] accepts gets the same answer from [IsLintFormatJSON]
    and the answer false from [IsLintFormatConfigIgnoreYAML]; a format it
    rejects is rejected by both with the same error, unless it is
    [config-ignore-yaml] once lowered and trimmed, which the lint checks
    accept. *)
Theorem lint_format_extends_format {SS : Strings} (flagName format : string) :
  (∀ b, IsFormatJSON flagName format = inr b →
     IsLintFormatJSON flagName format = inr b ∧
     IsLintFormatConfigIgnoreYAML flagName format = inr false) ∧
  (∀ e, IsFormatJSON flagName format = inl e →
     (IsLintFormatJSON flagName format = inl e ∧
      IsLintFormatConfigIgnoreYAML flagName format = inl e) ∨
     (TrimSpace (ToLower format) = "config-ignore-yaml" ∧
      IsLintFormatJSON flagName format = inr false ∧
      IsLintFormatConfigIgnoreYAML flagName format = inr true)).
Proof.
  unfold IsFormatJSON, IsLintFormatJSON, IsLintFormatConfigIgnoreYAML.
  set (s := TrimSpace (ToLower format)). cbv zeta.
  destruct (decide (s = "text" ∨ s = "")) as [Ht|Ht].
  { split; [by intros b [= <-]|done]. }
  destruct (decide (s = "json")) as [Hj|Hj].
  { split; [by intros b [= <-]|done]. }
  split; [done|]. intros e [= <-].
  destruct (decide (s = "config-ignore-yaml")); [by right|by left].
Qed.

(** The format [ JSON ] on ASCII strings. *)
Lemma lint_format_extends_format_witness :
  IsFormatJSON (SS:=asciiStrings) "format" " JSON " = inr true ∧
  IsLintFormatJSON (SS:=asciiStrings) "format" " JSON " = inr true ∧
  IsLintFormatConfigIgnoreYAML (SS:=asciiStrings) "format" " JSON " =
    inr false.
Proof.
  split; [reflexivity|].
  apply (proj1 (lint_format_extends_format (SS:=asciiStrings)
                  "format" " JSON ") true).
  reflexivity.
Defined.

(** X16: [IsLintFormatJSON] and [IsLintFormatConfigIgnoreYAML] reject the
    same formats, with the same error, which names the flag and the
    lowered, trimmed format; they never both answer true; and they both
    answer false exactly for the formats that are [text] or empty once
    lowered and trimmed. *)
Theorem lint_formats_exclusive {SS : Strings} (flagName format : string) :
  (∀ e, IsLintFormatJSON flagName format = inl e ↔
        IsLintFormatConfigIgnoreYAML flagName format = inl e) ∧
  (∀ e, IsLintFormatJSON flagName format = inl e →
        e = ErrUnknownFormat flagName (TrimSpace (ToLower format))) ∧
  (IsLintFormatJSON flagName format = inr true →
   IsLintFormatConfigIgnoreYAML flagName format = inr false) ∧
  (IsLintFormatConfigIgnoreYAML flagName format = inr true →
   IsLintFormatJSON flagName format = inr false) ∧
  (IsLintFormatJSON flagName format = inr false ∧
   IsLintFormatConfigIgnoreYAML flagName format = inr false ↔
   TrimSpace (ToLower format) = "text" ∨ TrimSpace (ToLower format) = "").
Proof.
  unfold IsLintFormatJSON, IsLintFormatConfigIgnoreYAML.
  set (s := TrimSpace (ToLower format)). cbv zeta.
  destruct (decide (s = "text" ∨ s = "")) as [Ht|Ht].
  { split_and!; intros; intuition congruence. }
  destruct (decide (s = "json")) as [Hj|Hj].
  { split_and!; intros; intuition congruence. }
  destruct (decide (s = "config-ignore-yaml")) as [Hy|Hy].
  { split_and!; intros; intuition congruence. }
  split_and!; intros; intuition congruence.
Qed.

(** The format [config-ignore-yaml] on ASCII strings. *)
Lemma lint_formats_exclusive_witness :
  IsLintFormatConfigIgnoreYAML (SS:=asciiStrings) "format"
    "config-ignore-yaml" = inr true ∧
  IsLintFormatJSON (SS:=asciiStrings) "format" "config-ignore-yaml" =
    inr false.
Proof.
  split; [reflexivity|].
  apply (proj1 (proj2 (proj2 (proj2
           (lint_formats_exclusive (SS:=asciiStrings) "format"
              "config-ignore-yaml"))))).
  reflexivity.
Defined.

(** X17: on ASCII strings the three format checks look neither at the
    case of the letters nor at white space around the format: a format
    between two runs of white space gets the answer of its lowered
    form. *)
Theorem format_checks_ignore_case_and_padding
  (flagName ws1 format ws2 : string) :
  isASCII format = true → allSpace ws1 = true → allSpace ws2 = true →
  IsFormatJSON (SS:=asciiStrings) flagName (ws1 ++ format ++ ws2) =
    IsFormatJSON (SS:=asciiStrings) flagName (toLower format) ∧
  IsLintFormatJSON (SS:=asciiStrings) flagName (ws1 ++ format ++ ws2) =
    IsLintFormatJSON (SS:=asciiStrings) flagName (toLower format) ∧
  IsLintFormatConfigIgnoreYAML (SS:=asciiStrings) flagName
    (ws1 ++ format ++ ws2) =
    IsLintFormatConfigIgnoreYAML (SS:=asciiStrings) flagName
      (toLower format).
Proof.
  intros _ H1 H2.
  assert (@TrimSpace asciiStrings
            (@ToLower asciiStrings (ws1 ++ format ++ ws2)) =
          @TrimSpace asciiStrings
            (@ToLower asciiStrings (toLower format))) as Heq.
  { simpl. rewrite !toLower_app, toLower_idem.
    rewrite (allSpace_toLower ws1), (allSpace_toLower ws2) by done.
    by apply trimSpace_pad. }
  unfold IsFormatJSON, IsLintFormatJSON, IsLintFormatConfigIgnoreYAML.
  by rewrite Heq.
Qed.

(** A tab, [Config-Ignore-YAML] and a line feed. *)
Lemma format_checks_ignore_case_and_padding_witness :
  IsLintFormatConfigIgnoreYAML (SS:=asciiStrings) "format"
    (String "009" "" ++ "Config-Ignore-YAML" ++ String "010" "") =
    inr true ∧
  IsFormatJSON (SS:=asciiStrings) "format"
    (String "009" "" ++ "Config-Ignore-YAML" ++ String "010" "") =
    IsFormatJSON (SS:=asciiStrings) "format" (toLower "Config-Ignore-YAML").
Proof.
  split; [reflexivity|].
  apply (format_checks_ignore_case_and_padding "format"
           (String "009" "") "Config-Ignore-YAML" (String "010" ""));
    reflexivity.
Defined.



(** ** The two modes together *)

Section modes.
Context {E : Type}.
Context {SP : Storagepath E} {ST : Storage E} {CP : ConfigProvider E}.
Context {MR : MapRange}.

Lemma statLoop_ext (bucket1 bucket2 : ReadBucket E) allow paths seen :
  (∀ n, Stat bucket1 n = Stat bucket2 n) →
  statLoop bucket1 allow paths seen = statLoop bucket2 allow paths seen.
Proof.
  intros Hs. revert seen. induction paths as [|p paths IH]; intros seen.
  - done.
  - simpl. destruct (NormalizeAndValidate p) as [e|n]; [done|].
    destruct (decide (n ∈ seen)); [done|].
    rewrite Hs. destruct (Stat bucket2 n) as [e|].
    + destruct (IsNotExist e); simpl; [|done].
      destruct allow; simpl; [|done]. by rewrite IH.
    + by rewrite IH.
Qed.

End modes.

(** X19: the explicit mode agrees with the root scan.  When the scan
    without excludes returns a set, each enumerated file exists and is
    within exactly the root it is enumerated under, then the explicit mode
    on a list that names some files of that set, each once, returns the
    entries of the set for the named files. *)
Theorem explicit_agrees_with_scan
  {E} {SP : Storagepath E} {ST : Storage E} {CP : ConfigProvider E}
  {MR : MapRange} (bucket : ReadBucket E) (roots paths ns : list string)
  (allow : bool) (config : Config) (pfs : ProtoFileSet) :
  newConfig roots [] = inr config →
  GetProtoFileSetForBucket bucket roots [] = Ok pfs →
  (∀ root f, root ∈ Roots config → f ∈ (Walk bucket root).1 →
     Stat bucket f = None ∧
     MapMatches (SliceToMap (Roots config)) f = {[root]}) →
  Forall2 (λ p n, NormalizeAndValidate p = inr n) paths ns →
  NoDup ns → ns ≠ [] →
  (∀ n, n ∈ ns → ∃ k, RootFilePathToRealFilePath pfs !! k = Some n) →
  ∃ m : gmap string string,
    GetProtoFileSetForRealFilePaths bucket roots paths allow =
      (ns, Ok {| ProtoFileSetRoots := ProtoFileSetRoots pfs;
                 RootFilePathToRealFilePath := m |}) ∧
    m ⊆ RootFilePathToRealFilePath pfs ∧
    ∀ k f, m !! k = Some f ↔
             RootFilePathToRealFilePath pfs !! k = Some f ∧ f ∈ ns.
Proof.
  intros Hc (config' & Hc' & _ & _ & Hr & _ & Hm)%bucket_Ok_inv
    Hcoherent HF Hnd Hne Hnamed.
  rewrite Hc in Hc'. injection Hc' as <-. rewrite Hr.
  assert (∀ k f, RootFilePathToRealFilePath pfs !! k = Some f →
                 Stat bucket f = None ∧ resolvesTo (Roots config) f k)
    as Hentry.
  { intros k f [(root & Hroot & Hf & _ & Hk) _]%Hm.
    destruct (Hcoherent root f Hroot Hf) as [Hs Hmatch].
    split; [done|]. by exists root. }
  assert (∀ n, n ∈ ns → Stat bucket n = None) as Hexist.
  { intros n [k Hk]%Hnamed. by apply (Hentry k n). }
  destruct (statLoop_declarative bucket allow paths ns ∅) as (S & Hl & HS).
  { intros n Hn. by apply not_elem_of_empty in Hn. }
  { done. }
  { intros n Hn. left. by apply Hexist. }
  { intros n _ _. apply not_elem_of_empty. }
  { intros l1 n l2 -> _ Hin.
    apply NoDup_app in Hnd as (_ & Hdisj & _). apply (Hdisj n Hin). by left. }
  assert (∀ n, n ∈ S ↔ n ∈ ns) as HS'.
  { intros n. rewrite HS. split.
    - intros [H%not_elem_of_empty | [H _]]; done.
    - intros Hn. right. split; [done|by apply Hexist]. }
  destruct (explicit_resolved bucket roots paths allow config ns S Hc Hl)
    as (m & Hres & _ & Hlookup).
  - intros p [k Hk]%HS'%Hnamed. exists k. by apply (Hentry k p).
  - intros p1 p2 k [k1 Hk1]%HS'%Hnamed [k2 Hk2]%HS'%Hnamed Hr1 Hr2.
    destruct (Hentry _ _ Hk1) as [_ Hr1'], (Hentry _ _ Hk2) as [_ Hr2'].
    rewrite (resolvesTo_functional _ _ _ _ Hr1' Hr1) in Hk1.
    rewrite (resolvesTo_functional _ _ _ _ Hr2' Hr2) in Hk2.
    congruence.
  - destruct ns as [|n ns]; [done|]. intros Hempty.
    assert (n ∈ S) as Hin by (apply HS'; by left).
    rewrite Hempty in Hin. by apply not_elem_of_empty in Hin.
  - assert (∀ k f, m !! k = Some f ↔
              RootFilePathToRealFilePath pfs !! k = Some f ∧ f ∈ ns) as Hboth.
    { intros k f. rewrite Hlookup, HS'. split.
      - intros [Hf Hk]. split; [|done].
        destruct (Hnamed f Hf) as [k' Hk'].
        destruct (Hentry _ _ Hk') as [_ Hr'].
        by rewrite (resolvesTo_functional _ _ _ _ Hk Hr').
      - intros [Hk Hf]. split; [done|]. by apply (Hentry k f). }
    exists m. split; [done|]. split; [|done].
    apply map_subseteq_spec. intros k f Hkf. by apply Hboth.
Qed.

(** The scan of the root [proto] finds two files; the explicit mode on
    one of them returns its entry. *)
Lemma explicit_agrees_with_scan_witness :
  ∃ m : gmap string string,
    GetProtoFileSetForRealFilePaths (MR:=rangeForward)
      (bucketOf ["proto/a.proto"; "proto/b.proto"]) ["proto"]
      ["proto/b.proto"] false =
      (["proto/b.proto"],
       Ok {| ProtoFileSetRoots := ["proto"];
             RootFilePathToRealFilePath := m |}) ∧
    m ⊆ {[ "a.proto" := "proto/a.proto"; "b.proto" := "proto/b.proto" ]} ∧
    ∀ k f, m !! k = Some f ↔
             ({[ "a.proto" := "proto/a.proto";
                 "b.proto" := "proto/b.proto" ]} : gmap string string)
               !! k = Some f ∧
             f ∈ ["proto/b.proto"].
Proof.
  refine (explicit_agrees_with_scan (MR:=rangeForward)
            (bucketOf ["proto/a.proto"; "proto/b.proto"]) ["proto"]
            ["proto/b.proto"] ["proto/b.proto"] false
            {| Roots := ["proto"]; Excludes := [] |}
            {| ProtoFileSetRoots := ["proto"];
               RootFilePathToRealFilePath :=
                 {[ "a.proto" := "proto/a.proto";
                    "b.proto" := "proto/b.proto" ]} |} _ _ _ _ _ _ _).
  - reflexivity.
  - vm_compute. reflexivity.
  - intros root f ->%list_elem_of_singleton Hf. vm_compute in Hf.
    apply elem_of_cons in Hf as [-> | Hf];
      [|apply elem_of_cons in Hf as [-> | Hf%elem_of_nil]; [|done]];
      split; vm_compute; reflexivity.
  - repeat constructor.
  - apply NoDup_singleton.
  - discriminate.
  - intros n ->%list_elem_of_singleton. exists "b.proto".
    vm_compute. reflexivity.
Defined.

(** X20: the root scan reads the bucket through its enumerations only and
    the explicit mode through its lookups only: two buckets with the same
    enumerations give the same scan, and two buckets with the same lookups
    give the same explicit resolution, so an explicit path need not be
    enumerated by the bucket. *)
Theorem modes_read_bucket_apart
  {E} {SP : Storagepath E} {ST : Storage E} {CP : ConfigProvider E}
  {MR : MapRange} (bucket1 bucket2 : ReadBucket E) (roots : list string) :
  ((∀ root, Walk bucket1 root = Walk bucket2 root) →
   ∀ excludes,
     GetProtoFileSetForBucket bucket1 roots excludes =
       GetProtoFileSetForBucket bucket2 roots excludes) ∧
  ((∀ path, Stat bucket1 path = Stat bucket2 path) →
   ∀ paths allow,
     GetProtoFileSetForRealFilePaths bucket1 roots paths allow =
       GetProtoFileSetForRealFilePaths bucket2 roots paths allow).
Proof.
  split.
  - intros Hw excludes. unfold GetProtoFileSetForBucket.
    destruct (newConfig roots excludes) as [e|config]; simpl; [done|].
    rewrite (walkRoots_ext bucket1 bucket2); [done|].
    intros root acc _. unfold walkRoot. by rewrite Hw.
  - intros Hs paths allow. unfold GetProtoFileSetForRealFilePaths.
    destruct (newConfig roots []) as [e|config]; [done|].
    by rewrite (statLoop_ext bucket1 bucket2).
Qed.

(** A bucket that enumerates nothing and finds every path: the explicit
    mode resolves [proto/a.proto] as with the bucket that holds it. *)
Lemma modes_read_bucket_apart_witness :
  GetProtoFileSetForRealFilePaths (MR:=rangeForward)
    {| Walk prefix := ([], None);
       Stat path := Stat (bucketOf ["proto/a.proto"]) path |}
    ["proto"] ["proto/a.proto"] false =
  GetProtoFileSetForRealFilePaths (MR:=rangeForward)
    (bucketOf ["proto/a.proto"]) ["proto"] ["proto/a.proto"] false ∧
  GetProtoFileSetForRealFilePaths (MR:=rangeForward)
    (bucketOf ["proto/a.proto"]) ["proto"] ["proto/a.proto"] false =
    (["proto/a.proto"],
     Ok {| ProtoFileSetRoots := ["proto"];
           RootFilePathToRealFilePath :=
             {[ "a.proto" := "proto/a.proto" ]} |}).
Proof.
  split; [|vm_compute; reflexivity].
  apply (proj2 (modes_read_bucket_apart (MR:=rangeForward)
                  {| Walk prefix := ([], None);
                     Stat path := Stat (bucketOf ["proto/a.proto"]) path |}
                  (bucketOf ["proto/a.proto"]) ["proto"])).
  reflexivity.
Defined.
